(** * Pass-based authorization and spending: a shallow embedding

    The development follows two modules of the repository:

    - [_zkapauthorizer/_storage_server.py], the server-side wrapper
      [ZKAPAuthorizerStorageServer] that checks passes before it forwards a
      call to the wrapped storage server, and
    - [_zkapauthorizer/spending.py], the client-side [PassGroup] and
      [SpendingController].

    Python exceptions are values of [exn]; a computation that may raise
    returns a [result]; a method that talks to a collaborator runs in the
    monad [M W] of functions from a world [W] to a new world and a result. *)

From Stdlib Require Import ZArith QArith Qround Lia.
From Stdlib.Strings Require Import Byte.
From stdpp Require Import base list strings gmap.

Close Scope Q_scope.
Open Scope Z_scope.

(** ** Exceptions and results *)

(** The exceptions the modelled code raises itself or lets through.  They are
    all subclasses of Python's [Exception].  [Foreign] stands for an
    exception raised inside a collaborator (the privacypass library, the
    wrapped storage server, the token store), told apart by a code. *)
Inductive exn : Type :=
| ValueError
| UnicodeDecodeError
| MorePassesRequired (valid_count required_count : Z)
| NotEnoughTokens
| Foreign (code : nat).

Inductive result (A : Type) : Type :=
| Ok (a : A)
| Raise (e : exn).
Arguments Ok {A} a.
Arguments Raise {A} e.

#[global] Instance result_ret : MRet result := λ A a, Ok a.
#[global] Instance result_bind : MBind result := λ A B f r,
  match r with
  | Ok a => f a
  | Raise e => Raise e
  end.
#[global] Instance result_fmap : FMap result := λ A B f r,
  match r with
  | Ok a => Ok (f a)
  | Raise e => Raise e
  end.

(** [try: body except Exception: handler]. *)
Definition try_except {A : Type} (body : result A) (handler : exn → result A)
  : result A :=
  match body with
  | Ok a => Ok a
  | Raise e => handler e
  end.

(** Python's [max] over a list of integers: [ValueError] on an empty one. *)
Definition py_max (l : list Z) : result Z :=
  match l with
  | [] => Raise ValueError
  | x :: r => Ok (foldl Z.max x r)
  end.

(** ** The monad of effectful methods *)

Definition M (W A : Type) : Type := W → W * result A.

#[global] Instance M_ret {W} : MRet (M W) := λ A a w, (w, Ok a).
#[global] Instance M_bind {W} : MBind (M W) := λ A B f m w,
  match m w with
  | (w', Ok a) => f a w'
  | (w', Raise e) => (w', Raise e)
  end.

Definition raise {W A : Type} (e : exn) : M W A := λ w, (w, Raise e).

(** Lift a computation without effects. *)
Definition lift {W A : Type} (r : result A) : M W A := λ w, (w, r).

(** ** Byte strings *)

Abbreviation bytes := (list byte).

#[global] Instance byte_eq_dec : EqDecision byte := Byte.byte_eq_dec.

(** [s.split(sep)] for a one-byte separator: the pieces between the
    occurrences of [sep], empty pieces included; never an empty list. *)
Fixpoint bytes_split (sep : byte) (s : bytes) : list bytes :=
  match s with
  | [] => [[]]
  | b :: r =>
      match bytes_split sep r with
      | [] => [[b]]
      | piece :: pieces =>
          if Byte.eqb b sep then [] :: piece :: pieces
          else (b :: piece) :: pieces
      end
  end.

(** [a, b = parts]: unpacking into exactly two names. *)
Definition unpack2 {A : Type} (parts : list A) : result (A * A) :=
  match parts with
  | [a; b] => Ok (a, b)
  | _ => Raise ValueError
  end.

(** *** Strict UTF-8 decoding, [bytes.decode("utf-8")]

    The well-formed byte sequences are those of the Unicode standard (no
    overlong forms, no surrogates, nothing above U+10FFFF); the result is the
    list of code points. *)

Definition in_range (lo hi b : N) : bool := (N.leb lo b && N.leb b hi)%bool.

Definition cont_bits (b : N) : N := N.land b 63.

Fixpoint utf8_decode_N (l : list N) : result (list N) :=
  match l with
  | [] => Ok []
  | b0 :: r0 =>
      if N.ltb b0 128 then cons b0 <$> utf8_decode_N r0
      else if in_range 194 223 b0 then
        match r0 with
        | b1 :: r1 =>
            if in_range 128 191 b1
            then cons (N.land b0 31 * 64 + cont_bits b1)%N <$> utf8_decode_N r1
            else Raise UnicodeDecodeError
        | _ => Raise UnicodeDecodeError
        end
      else if in_range 224 239 b0 then
        match r0 with
        | b1 :: b2 :: r2 =>
            let lo := if N.eqb b0 224 then 160%N else 128%N in
            let hi := if N.eqb b0 237 then 159%N else 191%N in
            if (in_range lo hi b1 && in_range 128 191 b2)%bool
            then cons ((N.land b0 15 * 64 + cont_bits b1) * 64 + cont_bits b2)%N
                   <$> utf8_decode_N r2
            else Raise UnicodeDecodeError
        | _ => Raise UnicodeDecodeError
        end
      else if in_range 240 244 b0 then
        match r0 with
        | b1 :: b2 :: b3 :: r3 =>
            let lo := if N.eqb b0 240 then 144%N else 128%N in
            let hi := if N.eqb b0 244 then 143%N else 191%N in
            if (in_range lo hi b1 && in_range 128 191 b2 && in_range 128 191 b3)%bool
            then cons (((N.land b0 7 * 64 + cont_bits b1) * 64 + cont_bits b2) * 64
                       + cont_bits b3)%N
                   <$> utf8_decode_N r3
            else Raise UnicodeDecodeError
        | _ => Raise UnicodeDecodeError
        end
      else Raise UnicodeDecodeError
  end.

Definition utf8_decode (s : bytes) : result (list N) :=
  utf8_decode_N (Byte.to_N <$> s).

(** ** storage_common: the helpers the server imports

    [_storage_server.py] imports [BYTES_PER_PASS], [required_passes],
    [has_writes] and the four binding-message functions from
    [storage_common.py].  The constant and the message functions are taken as
    parameters below ([StorageCommon]); the two functions are modelled. *)

(** A test vector entry is (offset, length, operator, specimen); a data
    vector entry is (offset, data).  [tw_vectors] maps a share number to
    (test vector, data vector, new_length). *)
Abbreviation test_vector := (list (Z * Z * bytes * bytes)).
Abbreviation data_vector := (list (Z * bytes)).
Abbreviation tw_vector := (test_vector * data_vector * option Z)%type.
Abbreviation tw_vectors := (gmap Z tw_vector).

(** Modelled from the spec: [required_for_bytes(bytes_per_pass, size)], which
    [storage_common.py] would define, is [ceil(max(size, 0) / bytes_per_pass)],
    the quotient taken in the rationals. *)
Definition required_for_bytes (bytes_per_pass size : Z) : Z :=
  Qceiling (inject_Z (Z.max size 0) / inject_Z bytes_per_pass).

(** Modelled from the spec: [required_passes(bytes_per_pass, sharenums,
    allocated_size)] of [storage_common.py], the spec's
    [required_for_allocation], is equal to
    [required_for_bytes(bytes_per_pass, allocated_size)]; the share numbers
    do not enter the count. *)
Definition required_passes (bytes_per_pass : Z) (sharenums : gset Z)
    (allocated_size : Z) : Z :=
  required_for_bytes bytes_per_pass allocated_size.

(** The data vector of an entry of [tw_vectors.items()]. *)
Definition item_data (item : Z * tw_vector) : data_vector := item.2.1.2.

(** The [if data] of the comprehensions: a non-empty data vector. *)
Definition writes_data (item : Z * tw_vector) : Prop := item_data item ≠ [].

#[global] Instance writes_data_dec item : Decision (writes_data item).
Proof. unfold writes_data. apply _. Defined.

(** [get_sharenums(tw_vectors)]: the share numbers whose data vector is not
    empty. *)
Definition get_sharenums (tw : tw_vectors) : gset Z :=
  list_to_set (fst <$> filter writes_data (map_to_list tw)).

(** Modelled from the spec: [has_writes(tw_vectors)] of [storage_common.py]
    tells whether the write vectors contain any actual write, that is
    whether the set of shares written is non-empty. *)
Definition has_writes (tw : tw_vectors) : bool :=
  bool_decide (get_sharenums tw ≠ ∅).

(** [max(offset + len(s) for (offset, s) in data)]. *)
Definition data_extent (data : data_vector) : result Z :=
  py_max ((λ '(offset, s), offset + Z.of_nat (length s)) <$> data).

(** [get_allocated_size(tw_vectors)]: the largest position written in any
    share; [max] of an empty list raises [ValueError]. *)
Definition get_allocated_size (tw : tw_vectors) : result Z :=
  extents ← mapM (λ item, data_extent (item_data item))
                 (filter writes_data (map_to_list tw));
  py_max extents.

(** The parameters of [storage_common.py] and the text type of the
    binding messages. *)
Class StorageCommon := {
  unicode : Type;
  encode_utf8 : unicode → result bytes;
  BYTES_PER_PASS : Z;
  allocate_buckets_message : bytes → unicode;
  add_lease_message : bytes → unicode;
  renew_lease_message : bytes → unicode;
  slot_testv_and_readv_and_writev_message : bytes → unicode;
}.

(** [check_pass_quantity_for_write(valid_count, sharenums, allocated_size)]. *)
Definition check_pass_quantity_for_write {SC : StorageCommon}
    (valid_count : Z) (sharenums : gset Z) (allocated_size : Z) : result unit :=
  let required_pass_count := required_passes BYTES_PER_PASS sharenums allocated_size in
  if valid_count <? required_pass_count
  then Raise (MorePassesRequired valid_count required_pass_count)
  else Ok tt.

(** [check_pass_quantity_for_mutable_write(valid_count, tw_vectors)]. *)
Definition check_pass_quantity_for_mutable_write {SC : StorageCommon}
    (valid_count : Z) (tw : tw_vectors) : result unit :=
  let sharenums := get_sharenums tw in
  allocated_size ← get_allocated_size tw;
  check_pass_quantity_for_write valid_count sharenums allocated_size.

(** ** The privacypass library, as the server uses it *)

Class PrivacyPass := {
  TokenPreimage : Type;
  VerificationSignature : Type;
  SigningKey : Type;
  RederivedToken : Type;
  VerificationKey : Type;
  TokenPreimage_decode_base64 : bytes → result TokenPreimage;
  VerificationSignature_decode_base64 : bytes → result VerificationSignature;
  rederive_unblinded_token : SigningKey → TokenPreimage → result RederivedToken;
  derive_verification_key_sha512 : RederivedToken → result VerificationKey;
  invalid_sha512 : VerificationKey → VerificationSignature → bytes → result bool;
}.

Section PassValidation.
Context {SC : StorageCommon} {PP : PrivacyPass}.
Variable _signing_key : SigningKey.

(** The body of the [try] block of [_is_invalid_pass]. *)
Definition is_invalid_pass_body (message : unicode) (pass_ : bytes)
  : result bool :=
  '(preimage_base64, signature_base64) ← unpack2 (bytes_split " " pass_);
  preimage ← TokenPreimage_decode_base64 preimage_base64;
  proposed_signature ← VerificationSignature_decode_base64 signature_base64;
  unblinded_token ← rederive_unblinded_token _signing_key preimage;
  verification_key ← derive_verification_key_sha512 unblinded_token;
  encoded ← encode_utf8 message;
  invalid_sha512 verification_key proposed_signature encoded.

(** [_is_invalid_pass(message, pass_)]: [True] when the pass is NOT
    valid. *)
Definition _is_invalid_pass (message : unicode) (pass_ : bytes)
  : result bool :=
  try_except (is_invalid_pass_body message pass_) (λ _, Ok true).

(** [_validate_passes(message, passes)]: the comprehension keeps, in
    order, the passes for which [_is_invalid_pass] is false. *)
Fixpoint _validate_passes (message : unicode) (passes : list bytes)
  : result (list bytes) :=
  match passes with
  | [] => Ok []
  | pass_ :: rest =>
      invalid ← _is_invalid_pass message pass_;
      valid_rest ← _validate_passes message rest;
      mret (if negb invalid then pass_ :: valid_rest else valid_rest)
  end.

(** A pass is valid when the check says it is not invalid. *)
Definition is_valid_pass (message : unicode) (pass_ : bytes) : Prop :=
  _is_invalid_pass message pass_ = Ok false.

#[global] Instance result_bool_eq_dec : EqDecision (result bool).
Proof. unfold EqDecision, Decision. repeat decide equality. Defined.

#[global] Instance is_valid_pass_dec message pass_ :
  Decision (is_valid_pass message pass_).
Proof. unfold is_valid_pass. apply _. Defined.

End PassValidation.

(** ** The wrapped storage server and the server's world *)

(** A lease, as far as the wrapper looks at it: its expiration time. *)
Record LeaseInfo := { get_expiration_time : Q }.

(** A lease is active at [now] when it expires strictly later. *)
Definition active_at (now : Q) (lease : LeaseInfo) : Prop :=
  (now < get_expiration_time lease)%Q.

(** The interface of the wrapped server ([_original]): the methods the
    wrapper calls, each a function of the storage state. *)
Class RIStorageServer := {
  St : Type;
  Canary : Type;
  LeaseArgs : Type;
  ReadVector : Type;
  Secrets : Type;
  AllocateReply : Type;
  LeaseReply : Type;
  SlotReply : Type;
  get_slot_leases : bytes → St → result (list LeaseInfo);
  original_remote_allocate_buckets :
    bytes → bytes → bytes → gset Z → Z → Canary → St → St * result AllocateReply;
  original_remote_add_lease : bytes → LeaseArgs → St → St * result LeaseReply;
  original_remote_renew_lease : bytes → LeaseArgs → St → St * result LeaseReply;
  original_slot_testv_and_readv_and_writev :
    bytes → Secrets → tw_vectors → ReadVector → bool → St → St * result SlotReply;
}.

Section Server.
Context {SC : StorageCommon} {PP : PrivacyPass} {RS : RIStorageServer}.

(** What the wrapper does that an observer can see: the pass validations
    it runs and the calls it makes on its clock and on the wrapped server, in
    the order they happen. *)
Inductive call : Type :=
| ValidatePasses (message : unicode) (passes : list bytes)
| ClockSeconds
| GetSlotLeases (storage_index : bytes)
| AllocateBuckets (storage_index renew_secret cancel_secret : bytes)
    (sharenums : gset Z) (allocated_size : Z) (canary : Canary)
| AddLease (storage_index : bytes) (a : LeaseArgs)
| RenewLease (storage_index : bytes) (a : LeaseArgs)
| SlotTestvAndReadvAndWritev (storage_index : bytes) (secrets : Secrets)
    (tw : tw_vectors) (r_vector : ReadVector) (renew_leases : bool).

(** The world of a server call: the state of the wrapped server, the time the
    injected clock shows, and the calls made so far. *)
Record world := {
  storage : St;
  clock : Q;
  calls : list call;
}.

Definition note (c : call) : M world unit :=
  λ w, ({| storage := storage w; clock := clock w; calls := calls w ++ [c] |}, Ok tt).

(** The world [w] after the calls [cs] were noted and the storage became
    [s]. *)
Definition after (w : world) (s : St) (cs : list call) : world :=
  {| storage := s; clock := clock w; calls := calls w ++ cs |}.

(** Run a method of the wrapped server on the storage state. *)
Definition on_storage {A : Type} (f : St → St * result A) : M world A :=
  λ w, let '(s, r) := f (storage w) in
       ({| storage := s; clock := clock w; calls := calls w |}, r).

(** The wrapper object: [_original] is the class instance above, [_clock] is
    in the world, [_signing_key] is the field kept here. *)
Variable _signing_key : SigningKey.

(** Read a component of the world. *)
Definition gets {A : Type} (f : world → A) : M world A := λ w, (w, Ok (f w)).

(** [self._clock.seconds()]. *)
Definition clock_seconds : M world Q :=
  note ClockSeconds ;; gets clock.

(** [self._validate_passes(message, passes)], noted as a validation. *)
Definition validate_passes (message : unicode) (passes : list bytes)
  : M world (list bytes) :=
  note (ValidatePasses message passes) ;;
  lift (_validate_passes _signing_key message passes).

(** [has_active_lease(storage_server, storage_index, now)]. *)
Definition has_active_lease (storage_index : bytes) (now : Q) : M world bool :=
  note (GetSlotLeases storage_index) ;;
  leases ← on_storage (λ s, (s, get_slot_leases storage_index s));
  mret (existsb (λ lease, negb (Qle_bool (get_expiration_time lease) now)) leases).

(** [remote_allocate_buckets]. *)
Definition remote_allocate_buckets (passes : list bytes)
    (storage_index renew_secret cancel_secret : bytes) (sharenums : gset Z)
    (allocated_size : Z) (canary : Canary) : M world AllocateReply :=
  valid_passes ← validate_passes (allocate_buckets_message storage_index) passes;
  lift (check_pass_quantity_for_write
          (Z.of_nat (length valid_passes)) sharenums allocated_size) ;;
  note (AllocateBuckets storage_index renew_secret cancel_secret
          sharenums allocated_size canary) ;;
  on_storage (original_remote_allocate_buckets
                storage_index renew_secret cancel_secret
                sharenums allocated_size canary).

(** [remote_add_lease]. *)
Definition remote_add_lease (passes : list bytes) (storage_index : bytes)
    (a : LeaseArgs) : M world LeaseReply :=
  validate_passes (add_lease_message storage_index) passes ;;
  note (AddLease storage_index a) ;;
  on_storage (original_remote_add_lease storage_index a).

(** [remote_renew_lease]. *)
Definition remote_renew_lease (passes : list bytes) (storage_index : bytes)
    (a : LeaseArgs) : M world LeaseReply :=
  validate_passes (renew_lease_message storage_index) passes ;;
  note (RenewLease storage_index a) ;;
  on_storage (original_remote_renew_lease storage_index a).

(** The [if has_writes(tw_vectors): ...] block of
    [remote_slot_testv_and_readv_and_writev]; it returns the value of
    [renew_leases] the block leaves. *)
Definition decide_renew_leases (passes : list bytes) (storage_index : bytes)
    (tw : tw_vectors) : M world bool :=
  if has_writes tw then
    now ← clock_seconds;
    active ← has_active_lease storage_index now;
    if negb active then
      valid_passes ← validate_passes
                       (slot_testv_and_readv_and_writev_message storage_index)
                       passes;
      lift (check_pass_quantity_for_mutable_write
              (Z.of_nat (length valid_passes)) tw) ;;
      mret true
    else mret false
  else mret false.

(** [remote_slot_testv_and_readv_and_writev]. *)
Definition remote_slot_testv_and_readv_and_writev (passes : list bytes)
    (storage_index : bytes) (secrets : Secrets) (tw : tw_vectors)
    (r_vector : ReadVector) : M world SlotReply :=
  renew_leases ← decide_renew_leases passes storage_index tw;
  note (SlotTestvAndReadvAndWritev storage_index secrets tw r_vector renew_leases) ;;
  on_storage (original_slot_testv_and_readv_and_writev
                storage_index secrets tw r_vector renew_leases).

End Server.

(** ** The client: spending.py *)

(** The types [spending.py] imports from [model.py], and the state of the
    store behind the callables a [SpendingController] is built from. *)
Class Model := {
  UnblindedToken : Type;
  Pass : Type;
  Store : Type;
}.

(** The records of [eliot.py] that [spending.py] logs. *)
Inductive log_record : Type :=
| GET_PASSES (message : list N) (count : Z)
| SPENT_PASSES (count : Z)
| INVALID_PASSES (reason : string) (count : Z)
| RESET_PASSES (count : Z).

(** The world of a client call: the store and the log. *)
Record spending_world {Mo : Model} := {
  store : Store;
  log : list log_record;
}.

Definition emit {Mo : Model} (r : log_record) : M spending_world unit :=
  λ w, ({| store := store w; log := log w ++ [r] |}, Ok tt).

(** Run one of the store's callables. *)
Definition on_store {Mo : Model} {A : Type} (f : Store → Store * result A)
  : M spending_world A :=
  λ w, let '(s, r) := f (store w) in ({| store := s; log := log w |}, r).

(** [PassGroup]: the attributes [_message], [_factory] and [_tokens]; [F] is
    the type of the factory the group refers to. *)
Record PassGroup {Mo : Model} (F : Type) := {
  _message : bytes;
  _factory : F;
  _tokens : list (UnblindedToken * Pass);
}.
Arguments _message {_ F} _.
Arguments _factory {_ F} _.
Arguments _tokens {_ F} _.

(** The interface [IPassFactory]. *)
Class IPassFactory {Mo : Model} (F : Type) := {
  factory_get : F → bytes → Z → M spending_world (PassGroup F);
  factory_mark_spent : F → list UnblindedToken → M spending_world unit;
  factory_mark_invalid : F → string → list UnblindedToken → M spending_world unit;
  factory_reset : F → list UnblindedToken → M spending_world unit;
}.

(** [enumerate(l)]. *)
Definition enumerate {A : Type} (l : list A) : list (nat * A) := imap pair l.

Module PassGroup.
Section Methods.
Context {Mo : Model} {F : Type} {PF : IPassFactory F}.

(** [attr.evolve(self, tokens=...)]. *)
Definition evolve (self : PassGroup F) (tokens : list (UnblindedToken * Pass))
  : PassGroup F :=
  {| _message := _message self; _factory := _factory self; _tokens := tokens |}.

(** The property [passes]. *)
Definition passes (self : PassGroup F) : list Pass := snd <$> _tokens self.

(** The property [unblinded_tokens]. *)
Definition unblinded_tokens (self : PassGroup F) : list UnblindedToken :=
  fst <$> _tokens self.

(** One turn of the loop of [split]: the element goes to the end of
    [selected] when its index is in [select_indices], of [unselected]
    otherwise. *)
Definition split_step (select_indices : gset Z)
    (acc : list (UnblindedToken * Pass) * list (UnblindedToken * Pass))
    (it : nat * (UnblindedToken * Pass))
  : list (UnblindedToken * Pass) * list (UnblindedToken * Pass) :=
  let '(selected, unselected) := acc in
  let '(idx, t) := it in
  if bool_decide (Z.of_nat idx ∈ select_indices)
  then (selected ++ [t], unselected)
  else (selected, unselected ++ [t]).

(** [split(select_indices)]. *)
Definition split (self : PassGroup F) (select_indices : gset Z)
  : PassGroup F * PassGroup F :=
  let '(selected, unselected) :=
    foldl (split_step select_indices) ([], []) (enumerate (_tokens self)) in
  (evolve self selected, evolve self unselected).

(** [__add__(other)]. *)
Definition add (self other : PassGroup F) : PassGroup F :=
  evolve self (_tokens self ++ zip (unblinded_tokens other) (passes other)).

(** [expand(by_amount)]. *)
Definition expand (self : PassGroup F) (by_amount : Z)
  : M spending_world (PassGroup F) :=
  other ← factory_get (_factory self) (_message self) by_amount;
  mret (add self other).

(** [mark_spent()]. *)
Definition mark_spent (self : PassGroup F) : M spending_world unit :=
  factory_mark_spent (_factory self) (unblinded_tokens self).

(** [mark_invalid(reason)]. *)
Definition mark_invalid (self : PassGroup F) (reason : string)
  : M spending_world unit :=
  factory_mark_invalid (_factory self) reason (unblinded_tokens self).

(** [reset()]. *)
Definition reset (self : PassGroup F) : M spending_world unit :=
  factory_reset (_factory self) (unblinded_tokens self).

End Methods.
End PassGroup.

(** [SpendingController]: the five callables it is built from. *)
Record SpendingController {Mo : Model} := {
  get_unblinded_tokens : Z → Store → Store * result (list UnblindedToken);
  discard_unblinded_tokens : list UnblindedToken → Store → Store * result unit;
  invalidate_unblinded_tokens :
    string → list UnblindedToken → Store → Store * result unit;
  reset_unblinded_tokens : list UnblindedToken → Store → Store * result unit;
  tokens_to_passes : bytes → list UnblindedToken → result (list Pass);
}.

Module SpendingController.
Section Methods.
Context {Mo : Model}.

(** [get(message, num_passes)]. *)
Definition get (self : SpendingController) (message : bytes) (num_passes : Z)
  : M spending_world (PassGroup SpendingController) :=
  unblinded_tokens ← on_store (get_unblinded_tokens self num_passes);
  passes ← lift (tokens_to_passes self message unblinded_tokens);
  decoded ← lift (utf8_decode message);
  emit (GET_PASSES decoded num_passes) ;;
  mret {| _message := message; _factory := self;
          _tokens := zip unblinded_tokens passes |}.

(** [mark_spent(unblinded_tokens)]. *)
Definition mark_spent (self : SpendingController)
    (unblinded_tokens : list UnblindedToken) : M spending_world unit :=
  emit (SPENT_PASSES (Z.of_nat (length unblinded_tokens))) ;;
  on_store (discard_unblinded_tokens self unblinded_tokens).

(** [mark_invalid(reason, unblinded_tokens)]. *)
Definition mark_invalid (self : SpendingController) (reason : string)
    (unblinded_tokens : list UnblindedToken) : M spending_world unit :=
  emit (INVALID_PASSES reason (Z.of_nat (length unblinded_tokens))) ;;
  on_store (invalidate_unblinded_tokens self reason unblinded_tokens).

(** [reset(unblinded_tokens)]. *)
Definition reset (self : SpendingController)
    (unblinded_tokens : list UnblindedToken) : M spending_world unit :=
  emit (RESET_PASSES (Z.of_nat (length unblinded_tokens))) ;;
  on_store (reset_unblinded_tokens self unblinded_tokens).

(** [@implementer(IPassFactory)]. *)
#[global] Instance implements_IPassFactory : IPassFactory SpendingController := {
  factory_get := get;
  factory_mark_spent := mark_spent;
  factory_mark_invalid := mark_invalid;
  factory_reset := reset;
}.

End Methods.
End SpendingController.

(** ** Concrete collaborators

    Small stand-ins for the collaborators, on which the model runs on
    concrete inputs. *)

Module Demo.

(** Messages are byte strings: a tag byte for the operation, then the storage
    index.  One pass pays for a million bytes. *)
Definition common : StorageCommon := {|
  unicode := bytes;
  encode_utf8 := Ok;
  BYTES_PER_PASS := 1000000;
  allocate_buckets_message := cons "a"%byte;
  add_lease_message := cons "l"%byte;
  renew_lease_message := cons "r"%byte;
  slot_testv_and_readv_and_writev_message := cons "s"%byte;
|}.

(** A stand-in for the privacypass library: an empty piece does not decode,
    and the signature of a preimage under a key for a message is the key
    followed by the preimage and the message. *)
Definition toy_decode (code : nat) (b : bytes) : result bytes :=
  match b with
  | [] => Raise (Foreign code)
  | _ => Ok b
  end.

Definition privacypass : PrivacyPass := {|
  TokenPreimage := bytes;
  VerificationSignature := bytes;
  SigningKey := bytes;
  RederivedToken := bytes;
  VerificationKey := bytes;
  TokenPreimage_decode_base64 := toy_decode 1;
  VerificationSignature_decode_base64 := toy_decode 2;
  rederive_unblinded_token := λ sk preimage, Ok (sk ++ preimage);
  derive_verification_key_sha512 := Ok;
  invalid_sha512 := λ vk signature message,
    Ok (negb (bool_decide (signature = vk ++ message)));
|}.

(** A stand-in for the wrapped server: its state is the list of the leases
    it holds, each with its storage index; a slot write told to renew leases
    adds one that expires at time 100. *)
Definition server : RIStorageServer := {|
  St := list (bytes * LeaseInfo);
  Canary := unit;
  LeaseArgs := unit;
  ReadVector := unit;
  Secrets := unit;
  AllocateReply := unit;
  LeaseReply := unit;
  SlotReply := unit;
  get_slot_leases := λ storage_index s,
    Ok (snd <$> filter (λ entry, entry.1 = storage_index) s);
  original_remote_allocate_buckets := λ _ _ _ _ _ _ s, (s, Ok tt);
  original_remote_add_lease := λ storage_index _ s,
    ((storage_index, {| get_expiration_time := 200 |}) :: s, Ok tt);
  original_remote_renew_lease := λ storage_index _ s,
    ((storage_index, {| get_expiration_time := 200 |}) :: s, Ok tt);
  original_slot_testv_and_readv_and_writev := λ storage_index _ _ _ renew_leases s,
    (if renew_leases : bool
     then (storage_index, {| get_expiration_time := 100 |}) :: s
     else s,
     Ok tt);
|}.

#[local] Existing Instances common privacypass server.

Definition signing_key : SigningKey := ["k"%byte].
Definition storage_index : bytes := ["i"%byte].

(** A pass that verifies for the slot-write message of [storage_index], and
    one with no delimiter. *)
Definition good_pass : bytes := ["p"; " "; "k"; "p"; "s"; "i"]%byte.
Definition bad_pass : bytes := ["p"; "k"; "p"; "s"; "i"]%byte.

(** One share, number 0, written up to position 500 000: five bytes at
    offset 499 995. *)
Definition one_write : tw_vectors :=
  {[ 0 := ([], [(499995, replicate 5 "x"%byte)], None) ]}.

(** Test vectors only: nothing is written. *)
Definition no_write : tw_vectors :=
  {[ 0 := ([(0, 1, ["e"%byte; "q"%byte], ["x"%byte])], [], None) ]}.

(** A world at time 50 in which [storage_index] holds a lease until 100, and
    one in which the lease ran out at 10. *)
Definition leased : world :=
  {| storage := [(storage_index, {| get_expiration_time := 100 |})];
     clock := 50; calls := [] |}.

Definition expired : world :=
  {| storage := [(storage_index, {| get_expiration_time := 10 |})];
     clock := 50; calls := [] |}.

(** Modelled from the spec: the token inventory, which [model.py] would
    implement as the voucher store.  [get(n)] draws [n] tokens from the
    available pool and fails when there are fewer; [reset] returns tokens to
    the pool; [discard] and [invalidate] do not.  The journal records the
    token lists the three operations were given. *)
Inductive inventory_call : Type :=
| Discarded (tokens : list nat)
| Invalidated (reason : string) (tokens : list nat)
| WasReset (tokens : list nat).

Record inventory := {
  available : list nat;
  journal : list inventory_call;
}.

Definition inventory_get (n : Z) (s : inventory)
  : inventory * result (list nat) :=
  if Z.of_nat (length (available s)) <? n
  then (s, Raise NotEnoughTokens)
  else ({| available := drop (Z.to_nat n) (available s);
           journal := journal s |},
        Ok (take (Z.to_nat n) (available s))).

Definition inventory_discard (tokens : list nat) (s : inventory)
  : inventory * result unit :=
  ({| available := available s;
      journal := journal s ++ [Discarded tokens] |}, Ok tt).

Definition inventory_invalidate (reason : string) (tokens : list nat)
    (s : inventory) : inventory * result unit :=
  ({| available := available s;
      journal := journal s ++ [Invalidated reason tokens] |}, Ok tt).

Definition inventory_reset (tokens : list nat) (s : inventory)
  : inventory * result unit :=
  ({| available := available s ++ tokens;
      journal := journal s ++ [WasReset tokens] |}, Ok tt).

(** Tokens are numbers; a pass is its token with the message it is bound
    to. *)
Definition model : Model := {|
  UnblindedToken := nat;
  Pass := bytes * nat;
  Store := inventory;
|}.

#[local] Existing Instance model.

Definition controller : SpendingController := {|
  get_unblinded_tokens := inventory_get;
  discard_unblinded_tokens := inventory_discard;
  invalidate_unblinded_tokens := inventory_invalidate;
  reset_unblinded_tokens := inventory_reset;
  tokens_to_passes := λ message tokens, Ok (pair message <$> tokens);
|}.

(** Three tokens available, nothing logged. *)
Definition stocked : spending_world :=
  {| store := {| available := [1; 2; 3]%nat; journal := [] |}; log := [] |}.

(** A message that is text, and one byte that is no UTF-8. *)
Definition text_message : bytes := ["m"%byte].
Definition binary_message : bytes := [xff%byte].

(** The group [get(text_message, 2)] returns in [stocked]. *)
Definition drawn : PassGroup SpendingController :=
  {| _message := text_message; _factory := controller;
     _tokens := [(1, (text_message, 1)); (2, (text_message, 2))]%nat |}.

End Demo.

(** ** Recovery from a replica: recover.py *)

(** [RecoveryStages]. *)
Inductive RecoveryStages : Type :=
| inactive
| started
| downloading
| importing
| succeeded
| download_failed
| import_failed.

#[global] Instance RecoveryStages_eq_dec : EqDecision RecoveryStages.
Proof. solve_decision. Defined.

(** The [name] of a member of the enumeration. *)
Definition stage_name (s : RecoveryStages) : string :=
  match s with
  | inactive => "inactive"
  | started => "started"
  | downloading => "downloading"
  | importing => "importing"
  | succeeded => "succeeded"
  | download_failed => "download_failed"
  | import_failed => "import_failed"
  end.

(** [RecoveryState], a frozen class of two attributes. *)
Record RecoveryState := {
  stage : RecoveryStages;
  failure_reason : option string;
}.

(** [RecoveryState.marshal()]: a dictionary of two keys. *)
Definition marshal (self : RecoveryState) : gmap string (option string) :=
  {[ "stage" := Some (stage_name (stage self));
     "failure-reason" := failure_reason self ]}.

(** [bytes.decode("ascii")]: every byte must be below 128. *)
Definition ascii_decode (s : bytes) : result (list N) :=
  if forallb (λ b, N.ltb (Byte.to_N b) 128) s
  then Ok (Byte.to_N <$> s)
  else Raise UnicodeDecodeError.

(** The characters at which [str.splitlines] breaks a line: LF, VT, FF, CR,
    FS, GS, RS, NEL, LS and PS. *)
Definition is_linebreak (c : N) : bool :=
  bool_decide (c ∈ [10; 11; 12; 13; 28; 29; 30; 133; 8232; 8233]%N).

(** [str.splitlines()]: the lines without their line breaks; CR LF is one
    break; a break at the very end opens no further line. *)
Fixpoint splitlines (s : list N) : list (list N) :=
  match s with
  | [] => []
  | c :: r =>
      if is_linebreak c then
        [] :: (if N.eqb c 13
               then match r with
                    | 10%N :: r' => splitlines r'
                    | _ => splitlines r
                    end
               else splitlines r)
      else
        match splitlines r with
        | [] => [[c]]
        | line :: lines => (c :: line) :: lines
        end
  end.

(** [statements_from_download(data)]; [data] stands for what [data.read()]
    returns. *)
Definition statements_from_download (data : bytes) : result (list (list N)) :=
  text ← ascii_decode data;
  mret (splitlines text).

(** The database cursor, and [str(e)] for an exception. *)
Class Cursor := {
  Db : Type;
  execute : list N → Db → Db * result unit;
  exn_str : exn → string;
}.

(** The recoverer's attribute [_state] and the database behind the
    cursor. *)
Record recoverer_world {Cu : Cursor} := {
  _state : RecoveryState;
  db : Db;
}.

(** [recover(statements, cursor)]: execute the statements in order. *)
Fixpoint recover {Cu : Cursor} (statements : list (list N))
  : M recoverer_world unit :=
  match statements with
  | [] => mret tt
  | sql :: rest =>
      (λ w, let '(d, r) := execute sql (db w) in
            ({| _state := _state w; db := d |}, r)) ;;
      recover rest
  end.

(** One call [download(set_state)] that comes back, as the recoverer sees
    it: the states the downloader reports through [set_state], in order, and
    then the data it returns or the exception it raises. *)
Record download_run := {
  reports : list RecoveryState;
  outcome : result bytes;
}.

(** [make_fail_downloader(reason)]. *)
Definition make_fail_downloader (reason : exn) : download_run :=
  {| reports := []; outcome := Raise reason |}.

(** [make_canned_downloader(data)]. *)
Definition make_canned_downloader (data : bytes) : download_run :=
  {| reports := []; outcome := Ok data |}.

(** [noop_downloader]. *)
Definition noop_downloader : download_run := make_canned_downloader [].

(** What a call of [StatefulRecoverer.recover] ends in: it returns [None] or
    raises [AlreadyRecovering]. *)
Inductive recover_outcome : Type :=
| ReturnedNone
| RaisedAlreadyRecovering.

Module StatefulRecoverer.
Section Methods.
Context {Cu : Cursor}.

(** [_set_state(state)]. *)
Definition _set_state (state : RecoveryState) : M recoverer_world unit :=
  λ w, ({| _state := state; db := db w |}, Ok tt).

(** [state()]. *)
Definition state : M recoverer_world RecoveryState :=
  λ w, (w, Ok (_state w)).

(** [await download(self._set_state)]. *)
Definition await_download (download : download_run)
  : M recoverer_world bytes :=
  mapM _set_state (reports download) ;;
  lift (outcome download).

(** [recover(download, cursor)]. *)
Definition recover (download : download_run) (w : recoverer_world)
  : recoverer_world * recover_outcome :=
  if decide (stage (_state w) ≠ inactive) then (w, RaisedAlreadyRecovering)
  else
    let w1 := (_set_state {| stage := started; failure_reason := None |} w).1 in
    match await_download download w1 with
    | (w2, Raise e) =>
        ((_set_state {| stage := download_failed;
                        failure_reason := Some (exn_str e) |} w2).1,
         ReturnedNone)
    | (w2, Ok downloaded_data) =>
        match (statements ← lift (statements_from_download downloaded_data);
               recover statements) w2 with
        | (w3, Raise e) =>
            ((_set_state {| stage := import_failed;
                            failure_reason := Some (exn_str e) |} w3).1,
             ReturnedNone)
        | (w3, Ok _) =>
            ((_set_state {| stage := succeeded; failure_reason := None |} w3).1,
             ReturnedNone)
        end
    end.

End Methods.
End StatefulRecoverer.

(** More concrete collaborators: a cursor that keeps the statements it
    executed and refuses the statement [x]; the text of an exception is its
    name or [error]. *)
Module MoreDemo.

Definition cursor : Cursor := {|
  Db := list (list N);
  execute := λ sql d,
    if decide (sql = [120%N]) then (d, Raise (Foreign 7)) else (d ++ [sql], Ok tt);
  exn_str := λ e,
    match e with
    | UnicodeDecodeError => "UnicodeDecodeError"
    | _ => "error"
    end;
|}.

#[local] Existing Instance cursor.

Definition fresh : recoverer_world :=
  {| _state := {| stage := inactive; failure_reason := None |}; db := [] |}.

(** The bytes of the two lines [a] and [b], each ended by LF. *)
Definition two_lines : bytes := ["a"; x0a; "b"; x0a]%byte.

(** A pass that verifies for the allocation message of
    [Demo.storage_index]. *)
Definition allocation_pass : bytes := ["p"; " "; "k"; "p"; "a"; "i"]%byte.

End MoreDemo.

(** * Properties *)

(** ** The result monad *)

Lemma result_bind_Ok {A B : Type} (r : result A) (f : A → result B) (b : B) :
  r ≫= f = Ok b ↔ ∃ a, r = Ok a ∧ f a = Ok b.
Proof.
  destruct r as [a|e]; simpl; split.
  - intros Hf. by exists a.
  - by intros (a' & [= ->] & Hf).
  - done.
  - by intros (a' & [=] & _).
Qed.

Lemma try_except_returns {A : Type} (body : result A) (a : A) :
  ∃ x, try_except body (λ _, Ok a) = Ok x.
Proof. destruct body as [x|e]; simpl; eauto. Qed.

(** ** Splitting a byte string *)

Lemma bytes_split_nonempty sep s : bytes_split sep s ≠ [].
Proof.
  destruct s as [|b r]; simpl; [done|].
  destruct (bytes_split sep r); [done|]. by destruct (Byte.eqb b sep).
Qed.

Lemma bytes_split_no_sep sep s : sep ∉ s → bytes_split sep s = [s].
Proof.
  induction s as [|b r IH]; intros Hnotin; simpl; [done|].
  apply not_elem_of_cons in Hnotin as [Hne Hr].
  rewrite (IH Hr).
  destruct (Byte.eqb b sep) eqn:E; [|done].
  apply Byte.byte_dec_bl in E. congruence.
Qed.

(** The number of pieces is one more than the number of separators. *)
Lemma bytes_split_length sep s :
  length (bytes_split sep s) = S (length (filter (λ b, b = sep) s)).
Proof.
  induction s as [|b r IH]; simpl; [done|].
  pose proof (bytes_split_nonempty sep r) as Hne.
  destruct (bytes_split sep r) as [|piece pieces]; [done|].
  rewrite filter_cons. simpl in IH.
  destruct (Byte.eqb b sep) eqn:E.
  - apply Byte.byte_dec_bl in E. rewrite decide_True by done. simpl. by rewrite IH.
  - rewrite decide_False; [by rewrite <- IH|].
    intros ->. by rewrite (Byte.byte_dec_lb (eq_refl sep)) in E.
Qed.

(** ** Validation of passes *)

Section PassValidationFacts.
Context {SC : StorageCommon} {PP : PrivacyPass}.
Variable sk : SigningKey.

Lemma is_invalid_pass_returns message pass_ :
  ∃ b, _is_invalid_pass sk message pass_ = Ok b.
Proof. apply try_except_returns. Qed.

Lemma is_invalid_pass_of_raise message pass_ e :
  is_invalid_pass_body sk message pass_ = Raise e →
  _is_invalid_pass sk message pass_ = Ok true.
Proof. unfold _is_invalid_pass. by intros ->. Qed.

Lemma is_invalid_pass_of_body message pass_ b :
  is_invalid_pass_body sk message pass_ = Ok b →
  _is_invalid_pass sk message pass_ = Ok b.
Proof. unfold _is_invalid_pass. by intros ->. Qed.

Lemma is_valid_pass_body message pass_ :
  is_valid_pass sk message pass_ ↔
  is_invalid_pass_body sk message pass_ = Ok false.
Proof.
  unfold is_valid_pass, _is_invalid_pass.
  destruct (is_invalid_pass_body sk message pass_) as [[]|e]; simpl; naive_solver.
Qed.

(** C4. The check of a single pass always returns a boolean, for every
    message and every encoded pass, and never raises.  Whenever a step of
    the check fails the answer is [True], "invalid": when the body raises
    anything at all; when the pass has no space, or does not split in
    exactly two pieces; when the first or the second piece does not decode;
    when the verification itself raises or reports a mismatch.  The answer
    "valid" is given only when every step succeeded and the verification
    accepted the signature. *)
Theorem is_invalid_pass_fails_closed (message : unicode) (pass_ : bytes) :
  (∃ b : bool, _is_invalid_pass sk message pass_ = Ok b) ∧
  (∀ e, is_invalid_pass_body sk message pass_ = Raise e →
        _is_invalid_pass sk message pass_ = Ok true) ∧
  (" "%byte ∉ pass_ → _is_invalid_pass sk message pass_ = Ok true) ∧
  (length (bytes_split " " pass_) ≠ 2%nat →
     _is_invalid_pass sk message pass_ = Ok true) ∧
  (∀ preimage_base64 signature_base64,
     bytes_split " " pass_ = [preimage_base64; signature_base64] →
     (∀ e, TokenPreimage_decode_base64 preimage_base64 = Raise e →
           _is_invalid_pass sk message pass_ = Ok true) ∧
     (∀ e, VerificationSignature_decode_base64 signature_base64 = Raise e →
           _is_invalid_pass sk message pass_ = Ok true) ∧
     (∀ preimage proposed_signature unblinded_token verification_key encoded,
        TokenPreimage_decode_base64 preimage_base64 = Ok preimage →
        VerificationSignature_decode_base64 signature_base64 = Ok proposed_signature →
        rederive_unblinded_token sk preimage = Ok unblinded_token →
        derive_verification_key_sha512 unblinded_token = Ok verification_key →
        encode_utf8 message = Ok encoded →
        invalid_sha512 verification_key proposed_signature encoded ≠ Ok false →
        _is_invalid_pass sk message pass_ = Ok true)) ∧
  (_is_invalid_pass sk message pass_ = Ok false →
     ∃ preimage_base64 signature_base64 preimage proposed_signature
       unblinded_token verification_key encoded,
       bytes_split " " pass_ = [preimage_base64; signature_base64] ∧
       TokenPreimage_decode_base64 preimage_base64 = Ok preimage ∧
       VerificationSignature_decode_base64 signature_base64 = Ok proposed_signature ∧
       rederive_unblinded_token sk preimage = Ok unblinded_token ∧
       derive_verification_key_sha512 unblinded_token = Ok verification_key ∧
       encode_utf8 message = Ok encoded ∧
       invalid_sha512 verification_key proposed_signature encoded = Ok false).
Proof.
  assert (Hlen : length (bytes_split " " pass_) ≠ 2%nat →
                 _is_invalid_pass sk message pass_ = Ok true).
  { intros Hl. unfold _is_invalid_pass, is_invalid_pass_body.
    destruct (bytes_split " " pass_) as [|a [|b [|c l]]]; simpl in *; done. }
  split_and!.
  - apply is_invalid_pass_returns.
  - apply is_invalid_pass_of_raise.
  - intros Hno. apply Hlen. by rewrite bytes_split_no_sep.
  - exact Hlen.
  - intros pre sig Hsplit. unfold _is_invalid_pass, is_invalid_pass_body.
    rewrite Hsplit. simpl. split_and!.
    + by intros e ->.
    + intros e He. destruct (TokenPreimage_decode_base64 pre); simpl; [|done].
      by rewrite He.
    + intros p s u vk enc Hp Hs Hu Hvk Henc.
      rewrite Hp; simpl. rewrite Hs; simpl. rewrite Hu; simpl.
      rewrite Hvk; simpl. rewrite Henc; simpl.
      destruct (invalid_sha512 vk s enc) as [[]|e]; simpl; done.
  - intros Hvalid. apply is_valid_pass_body in Hvalid.
    unfold is_invalid_pass_body in Hvalid.
    apply result_bind_Ok in Hvalid as ([pre sig] & Hunpack & Hvalid).
    apply result_bind_Ok in Hvalid as (p & Hp & Hvalid).
    apply result_bind_Ok in Hvalid as (s & Hs & Hvalid).
    apply result_bind_Ok in Hvalid as (u & Hu & Hvalid).
    apply result_bind_Ok in Hvalid as (vk & Hvk & Hvalid).
    apply result_bind_Ok in Hvalid as (enc & Henc & Hvalid).
    exists pre, sig, p, s, u, vk, enc. split_and!; try done.
    destruct (bytes_split " " pass_) as [|a [|b [|c l]]]; simpl in *; congruence.
Qed.

End PassValidationFacts.

Section ValidatePassesFacts.
Context {SC : StorageCommon} {PP : PrivacyPass}.
Variable sk : SigningKey.

(** The comprehension of [_validate_passes] never raises: it is the filter
    of the passes by validity. *)
Lemma validate_passes_filter message passes :
  _validate_passes sk message passes
  = Ok (filter (is_valid_pass sk message) passes).
Proof.
  induction passes as [|p rest IH]; simpl; [done|].
  rewrite IH, filter_cons.
  destruct (decide (is_valid_pass sk message p)) as [Hv|Hv].
  - unfold is_valid_pass in Hv. by rewrite Hv.
  - destruct (is_invalid_pass_returns sk message p) as [[] Hb].
    + by rewrite Hb.
    + done.
Qed.

(** C7. For every signing key, message and list of passes,
    [_validate_passes] returns a list that is a subsequence of the input, in
    the input's order: it is the input with exactly the passes dropped that
    are not individually valid.  Whether a pass is kept does not depend on
    the passes around it (validating a concatenation gives the concatenation
    of the validations), the result is a function of the inputs, and
    validating the result again returns it unchanged. *)
Theorem validate_passes_subsequence (message : unicode) (passes : list bytes) :
  ∃ valid,
    _validate_passes sk message passes = Ok valid ∧
    valid `sublist_of` passes ∧
    valid = filter (is_valid_pass sk message) passes ∧
    (∀ p, p ∈ valid ↔ p ∈ passes ∧ is_valid_pass sk message p) ∧
    (∀ before after,
       ∃ valid_before valid_after,
         _validate_passes sk message before = Ok valid_before ∧
         _validate_passes sk message after = Ok valid_after ∧
         _validate_passes sk message (before ++ passes ++ after)
         = Ok (valid_before ++ valid ++ valid_after)) ∧
    (∀ valid', _validate_passes sk message passes = Ok valid' → valid' = valid) ∧
    _validate_passes sk message valid = Ok valid.
Proof.
  exists (filter (is_valid_pass sk message) passes). split_and!.
  - apply validate_passes_filter.
  - apply sublist_filter.
  - done.
  - intros p. rewrite list_elem_of_filter. tauto.
  - intros before after. eexists _, _. split_and!.
    + apply validate_passes_filter.
    + apply validate_passes_filter.
    + by rewrite validate_passes_filter, !filter_app.
  - intros valid'. rewrite validate_passes_filter. by intros [= <-].
  - rewrite validate_passes_filter. f_equal.
    by apply list_filter_filter_r.
Qed.

End ValidatePassesFacts.

(** ** The wrapper's methods *)

Section ServerFacts.
Context {SC : StorageCommon} {PP : PrivacyPass} {RS : RIStorageServer}.
Variable sk : SigningKey.

Lemma after_nil w : after w (storage w) [] = w.
Proof. destruct w. unfold after. simpl. by rewrite app_nil_r. Qed.

Lemma after_after w s cs s' cs' :
  after (after w s cs) s' cs' = after w s' (cs ++ cs').
Proof. unfold after. simpl. by rewrite app_assoc. Qed.

Lemma note_run c w : note c w = (after w (storage w) [c], Ok tt).
Proof. done. Qed.

Lemma validate_passes_run message passes w :
  validate_passes sk message passes w
  = (after w (storage w) [ValidatePasses message passes],
     Ok (filter (is_valid_pass sk message) passes)).
Proof.
  unfold validate_passes, lift, mbind, M_bind. rewrite note_run.
  by rewrite validate_passes_filter.
Qed.

Lemma on_storage_run {A} (f : St → St * result A) w :
  on_storage f w = (after w (f (storage w)).1 [], (f (storage w)).2).
Proof.
  unfold on_storage, after. destruct (f (storage w)). simpl.
  by rewrite app_nil_r.
Qed.

(** The forwarding of a call [c] to a method [f] of the wrapped server. *)
Lemma forward_run {A} c (f : St → St * result A) w :
  (note c ;; on_storage f) w = (after w (f (storage w)).1 [c], (f (storage w)).2).
Proof.
  unfold mbind, M_bind. rewrite note_run, on_storage_run, after_after.
  simpl. by destruct (f (storage w)).2.
Qed.

(** C3. [remote_allocate_buckets] validates the passes against
    [allocate_buckets_message(storage_index)] and counts the valid ones.
    When the count is below [required_passes] for the share numbers and the
    allocated size, the call raises [MorePassesRequired(valid_count,
    required_count)], the wrapped server is not called and its state is
    unchanged; otherwise the call is forwarded to the wrapped server's
    [remote_allocate_buckets] and its answer returned. *)
Theorem allocate_buckets_checks_passes (passes : list bytes)
    (storage_index renew_secret cancel_secret : bytes) (sharenums : gset Z)
    (allocated_size : Z) (canary : Canary) (w : world) :
  let message := allocate_buckets_message storage_index in
  let valid_count :=
    Z.of_nat (length (filter (is_valid_pass sk message) passes)) in
  let required_count := required_passes BYTES_PER_PASS sharenums allocated_size in
  let forwarded :=
    original_remote_allocate_buckets storage_index renew_secret cancel_secret
      sharenums allocated_size canary (storage w) in
  remote_allocate_buckets sk passes storage_index renew_secret cancel_secret
    sharenums allocated_size canary w
  = if valid_count <? required_count
    then (after w (storage w) [ValidatePasses message passes],
          Raise (MorePassesRequired valid_count required_count))
    else (after w forwarded.1
            [ValidatePasses message passes;
             AllocateBuckets storage_index renew_secret cancel_secret
               sharenums allocated_size canary],
          forwarded.2).
Proof.
  intros message valid_count required_count forwarded.
  unfold remote_allocate_buckets.
  unfold mbind at 1, M_bind at 1. rewrite validate_passes_run.
  fold message. fold valid_count.
  unfold mbind at 1, M_bind at 1, lift, check_pass_quantity_for_write.
  fold required_count.
  destruct (valid_count <? required_count); [done|].
  rewrite forward_run, after_after. done.
Qed.

(** [remote_add_lease] and [remote_renew_lease] run the validation against
    their lease message and drop its result: whatever the passes, the call is
    forwarded to the wrapped server and its answer returned. *)
Lemma lease_calls_forward_whatever_the_passes (passes : list bytes)
    (storage_index : bytes) (a : LeaseArgs) (w : world) :
  remote_add_lease sk passes storage_index a w
  = (after w (original_remote_add_lease storage_index a (storage w)).1
       [ValidatePasses (add_lease_message storage_index) passes;
        AddLease storage_index a],
     (original_remote_add_lease storage_index a (storage w)).2)
  ∧
  remote_renew_lease sk passes storage_index a w
  = (after w (original_remote_renew_lease storage_index a (storage w)).1
       [ValidatePasses (renew_lease_message storage_index) passes;
        RenewLease storage_index a],
     (original_remote_renew_lease storage_index a (storage w)).2).
Proof.
  unfold remote_add_lease, remote_renew_lease. split.
  - unfold mbind at 1, M_bind at 1. rewrite validate_passes_run.
    by rewrite forward_run, after_after.
  - unfold mbind at 1, M_bind at 1. rewrite validate_passes_run.
    by rewrite forward_run, after_after.
Qed.

(** *** Leases and write vectors *)

Lemma existsb_active now leases :
  existsb (λ lease, negb (Qle_bool (get_expiration_time lease) now)) leases = true
  ↔ ∃ lease, lease ∈ leases ∧ active_at now lease.
Proof.
  rewrite existsb_exists. unfold active_at. split.
  - intros (lease & Hin & Hlt). exists lease. split; [by apply list_elem_of_In|].
    apply negb_true_iff in Hlt. apply Qnot_le_lt. intros Hle.
    apply Qle_bool_iff in Hle. congruence.
  - intros (lease & Hin & Hlt). exists lease. split; [by apply list_elem_of_In|].
    apply negb_true_iff. destruct (Qle_bool _ _) eqn:E; [|done].
    apply Qle_bool_iff in E. by apply Qlt_not_le in Hlt.
Qed.

Lemma has_active_lease_run storage_index now w leases :
  get_slot_leases storage_index (storage w) = Ok leases →
  has_active_lease storage_index now w
  = (after w (storage w) [GetSlotLeases storage_index],
     Ok (existsb (λ lease, negb (Qle_bool (get_expiration_time lease) now)) leases)).
Proof.
  intros Hleases. unfold has_active_lease.
  unfold mbind at 1, M_bind at 1. rewrite note_run.
  unfold mbind at 1, M_bind at 1. rewrite on_storage_run. simpl.
  rewrite Hleases. unfold mret, M_ret. by rewrite after_after.
Qed.

Lemma clock_seconds_run w :
  clock_seconds w = (after w (storage w) [ClockSeconds], Ok (clock w)).
Proof. done. Qed.

End ServerFacts.

Lemma mapM_result_Ok {A B : Type} (f : A → result B) (l : list A) :
  Forall (λ x, ∃ y, f x = Ok y) l →
  ∃ ys, mapM f l = Ok ys ∧ length ys = length l.
Proof.
  induction 1 as [|x l [y Hy] _ (ys & Hys & Hlen)]; simpl.
  - by exists [].
  - exists (y :: ys). rewrite Hy. simpl. rewrite Hys. simpl. by rewrite Hlen.
Qed.

Lemma py_max_Ok (l : list Z) : l ≠ [] → ∃ m, py_max l = Ok m.
Proof. destruct l; [done|]. simpl. eauto. Qed.

Lemma has_writes_filter tw :
  has_writes tw = true ↔ filter writes_data (map_to_list tw) ≠ [].
Proof.
  unfold has_writes, get_sharenums. rewrite bool_decide_eq_true.
  destruct (filter writes_data (map_to_list tw)) as [|item items]; simpl.
  - split; [intros Hne; by destruct Hne|done].
  - split; [done|]. intros _. set_solver.
Qed.

(** When the vectors hold a write, [get_allocated_size] returns: neither
    [max] is taken over an empty list. *)
Lemma get_allocated_size_returns tw :
  has_writes tw = true → ∃ size, get_allocated_size tw = Ok size.
Proof.
  intros Hw. apply has_writes_filter in Hw. unfold get_allocated_size.
  destruct (mapM_result_Ok (λ item, data_extent (item_data item))
              (filter writes_data (map_to_list tw))) as (ys & Hys & Hlen).
  { apply Forall_forall. intros item Hin.
    apply list_elem_of_filter in Hin as [Hdata _].
    apply py_max_Ok. unfold writes_data in Hdata.
    by destruct (item_data item). }
  rewrite Hys. simpl. apply py_max_Ok.
  intros ->. simpl in Hlen. symmetry in Hlen. by apply length_zero_iff_nil in Hlen.
Qed.

Section SlotWriteFacts.
Context {SC : StorageCommon} {PP : PrivacyPass} {RS : RIStorageServer}.
Variable sk : SigningKey.

Lemma decide_renew_leases_no_writes passes storage_index tw w :
  has_writes tw = false →
  decide_renew_leases sk passes storage_index tw w = (w, Ok false).
Proof. unfold decide_renew_leases. by intros ->. Qed.

Lemma decide_renew_leases_active passes storage_index tw w leases lease :
  has_writes tw = true →
  get_slot_leases storage_index (storage w) = Ok leases →
  lease ∈ leases → active_at (clock w) lease →
  decide_renew_leases sk passes storage_index tw w
  = (after w (storage w) [ClockSeconds; GetSlotLeases storage_index], Ok false).
Proof.
  intros Hw Hleases Hin Hactive. unfold decide_renew_leases. rewrite Hw.
  unfold mbind at 1, M_bind at 1. rewrite clock_seconds_run.
  unfold mbind at 1, M_bind at 1.
  rewrite (has_active_lease_run _ _ _ leases) by done.
  replace (existsb _ leases) with true.
  - simpl. unfold mret, M_ret. by rewrite after_after.
  - symmetry. apply existsb_active. eauto.
Qed.

Lemma decide_renew_leases_inactive passes storage_index tw w leases allocated_size :
  has_writes tw = true →
  get_slot_leases storage_index (storage w) = Ok leases →
  (∀ lease, lease ∈ leases → ¬ active_at (clock w) lease) →
  get_allocated_size tw = Ok allocated_size →
  let message := slot_testv_and_readv_and_writev_message storage_index in
  let valid_count :=
    Z.of_nat (length (filter (is_valid_pass sk message) passes)) in
  let required_count :=
    required_passes BYTES_PER_PASS (get_sharenums tw) allocated_size in
  decide_renew_leases sk passes storage_index tw w
  = (after w (storage w)
       [ClockSeconds; GetSlotLeases storage_index; ValidatePasses message passes],
     if valid_count <? required_count
     then Raise (MorePassesRequired valid_count required_count)
     else Ok true).
Proof.
  intros Hw Hleases Hnone Hsize message valid_count required_count.
  unfold decide_renew_leases. rewrite Hw.
  unfold mbind at 1, M_bind at 1. rewrite clock_seconds_run.
  unfold mbind at 1, M_bind at 1.
  rewrite (has_active_lease_run _ _ _ leases) by done.
  replace (existsb _ leases) with false.
  - change (negb false) with true. cbv iota.
    unfold mbind at 1, M_bind at 1. rewrite validate_passes_run.
    fold message. fold valid_count. rewrite !after_after. simpl app.
    unfold mbind at 1, M_bind at 1, lift.
    unfold check_pass_quantity_for_mutable_write. rewrite Hsize. simpl.
    unfold check_pass_quantity_for_write. fold required_count.
    by destruct (valid_count <? required_count).
  - symmetry. apply not_true_is_false. intros Hex.
    apply existsb_active in Hex as (lease & Hin & Hactive).
    by apply (Hnone lease).
Qed.

(** C1. [remote_slot_testv_and_readv_and_writev] asks for no passes when
    the vectors hold no write, and none when the storage index has a lease that
    expires strictly after the clock's time: in both cases the call is
    forwarded to the wrapped server with [renew_leases=False] and its answer
    returned, whatever the passes and the size of the writes.  All the wrapper
    does before is, when there are writes, to read the clock and look up the
    leases: no validation of passes is among its calls. *)
Theorem slot_write_forwarded_without_passes (passes : list bytes)
    (storage_index : bytes) (secrets : Secrets) (tw : tw_vectors)
    (r_vector : ReadVector) (w : world) :
  has_writes tw = false ∨
  (∃ leases lease,
     get_slot_leases storage_index (storage w) = Ok leases ∧
     lease ∈ leases ∧ active_at (clock w) lease) →
  let forwarded :=
    original_slot_testv_and_readv_and_writev
      storage_index secrets tw r_vector false (storage w) in
  let made :=
    (if has_writes tw then [ClockSeconds; GetSlotLeases storage_index] else [])
    ++ [SlotTestvAndReadvAndWritev storage_index secrets tw r_vector false] in
  remote_slot_testv_and_readv_and_writev sk passes storage_index secrets tw
    r_vector w
  = (after w forwarded.1 made, forwarded.2) ∧
  ∀ message passes', ValidatePasses message passes' ∉ made.
Proof.
  intros Hcase forwarded made. split.
  - unfold remote_slot_testv_and_readv_and_writev.
    unfold mbind at 1, M_bind at 1.
    destruct (has_writes tw) eqn:Hw.
    + destruct Hcase as [|(leases & lease & Hleases & Hin & Hactive)]; [done|].
      rewrite (decide_renew_leases_active _ _ _ _ leases lease) by done.
      by rewrite forward_run, after_after.
    + rewrite decide_renew_leases_no_writes by done.
      by rewrite forward_run.
  - intros message passes'. subst made.
    destruct (has_writes tw); simpl; rewrite ?not_elem_of_cons;
      split_and?; try done; apply not_elem_of_nil.
Qed.

(** C2. When the vectors hold a write and no lease of the storage index is
    active at the clock's time, [remote_slot_testv_and_readv_and_writev]
    validates the passes against
    [slot_testv_and_readv_and_writev_message(storage_index)] and compares the
    number of valid passes with [required_passes] for the shares written and
    the largest position written.  With enough valid passes the wrapped
    server's write is called with [renew_leases=True]; with fewer the call
    raises [MorePassesRequired(valid_count, required_count)], the wrapped
    server's write is not called and its state is unchanged. *)
Theorem slot_write_checks_passes (passes : list bytes)
    (storage_index : bytes) (secrets : Secrets) (tw : tw_vectors)
    (r_vector : ReadVector) (w : world) (leases : list LeaseInfo) :
  has_writes tw = true →
  get_slot_leases storage_index (storage w) = Ok leases →
  (∀ lease, lease ∈ leases → ¬ active_at (clock w) lease) →
  ∃ allocated_size,
    get_allocated_size tw = Ok allocated_size ∧
    let message := slot_testv_and_readv_and_writev_message storage_index in
    let valid_count :=
      Z.of_nat (length (filter (is_valid_pass sk message) passes)) in
    let required_count :=
      required_passes BYTES_PER_PASS (get_sharenums tw) allocated_size in
    let forwarded :=
      original_slot_testv_and_readv_and_writev
        storage_index secrets tw r_vector true (storage w) in
    remote_slot_testv_and_readv_and_writev sk passes storage_index secrets tw
      r_vector w
    = if valid_count <? required_count
      then (after w (storage w)
              [ClockSeconds; GetSlotLeases storage_index;
               ValidatePasses message passes],
            Raise (MorePassesRequired valid_count required_count))
      else (after w forwarded.1
              [ClockSeconds; GetSlotLeases storage_index;
               ValidatePasses message passes;
               SlotTestvAndReadvAndWritev storage_index secrets tw r_vector true],
            forwarded.2).
Proof.
  intros Hw Hleases Hnone.
  destruct (get_allocated_size_returns tw Hw) as [allocated_size Hsize].
  exists allocated_size. split; [done|].
  intros message valid_count required_count forwarded.
  unfold remote_slot_testv_and_readv_and_writev.
  unfold mbind at 1, M_bind at 1.
  rewrite (decide_renew_leases_inactive _ _ _ _ leases allocated_size) by done.
  fold message. fold valid_count. fold required_count.
  destruct (valid_count <? required_count); [done|].
  by rewrite forward_run, after_after.
Qed.

End SlotWriteFacts.

(** ** The number of passes required *)

(** The ceiling of the rational quotient, in integer arithmetic. *)
Lemma required_for_bytes_div (bytes_per_pass size : Z) :
  required_for_bytes bytes_per_pass size
  = - ((- Z.max size 0) `div` bytes_per_pass).
Proof.
  unfold required_for_bytes, Qceiling. f_equal.
  rewrite Zdiv_Qdiv. apply Qfloor_comp.
  rewrite inject_Z_opp. unfold Qdiv. ring.
Qed.

Lemma required_for_bytes_bounds (bytes_per_pass size : Z) :
  0 < bytes_per_pass → 0 ≤ size →
  (required_for_bytes bytes_per_pass size - 1) * bytes_per_pass < size
  ∧ size ≤ required_for_bytes bytes_per_pass size * bytes_per_pass.
Proof.
  intros Hb Hs. rewrite required_for_bytes_div.
  rewrite Z.max_l by lia.
  pose proof (Z.div_mod (- size) bytes_per_pass) as Hdm.
  pose proof (Z.mod_pos_bound (- size) bytes_per_pass Hb) as Hmod.
  nia.
Qed.

(** C5. For [bytes_per_pass > 0] and [size >= 0] the number of passes
    required for [size] bytes is the ceiling of [size / bytes_per_pass]: the
    one integer [n] with [(n - 1) * bytes_per_pass < size <= n *
    bytes_per_pass].  It is 0 for [size = 0], never negative, and does not
    decrease when [size] grows.  The number required for an allocation is the
    number required for the allocated size alone, whatever the share
    numbers. *)
Theorem required_passes_is_ceiling (bytes_per_pass size : Z) :
  0 < bytes_per_pass → 0 ≤ size →
  (∀ n : Z, n = required_for_bytes bytes_per_pass size ↔
            (n - 1) * bytes_per_pass < size ≤ n * bytes_per_pass) ∧
  required_for_bytes bytes_per_pass 0 = 0 ∧
  0 ≤ required_for_bytes bytes_per_pass size ∧
  (∀ size', size ≤ size' →
            required_for_bytes bytes_per_pass size
            ≤ required_for_bytes bytes_per_pass size') ∧
  (∀ sharenums : gset Z,
     required_passes bytes_per_pass sharenums size
     = required_for_bytes bytes_per_pass size) ∧
  (∀ sharenums sharenums' : gset Z,
     required_passes bytes_per_pass sharenums size
     = required_passes bytes_per_pass sharenums' size).
Proof.
  intros Hb Hs.
  pose proof (required_for_bytes_bounds bytes_per_pass size Hb Hs) as Hsize.
  split_and!.
  - intros n. split; [by intros ->|]. intros Hn. nia.
  - pose proof (required_for_bytes_bounds bytes_per_pass 0 Hb) as H0. nia.
  - nia.
  - intros size' Hle.
    pose proof (required_for_bytes_bounds bytes_per_pass size' Hb) as Hsize'.
    nia.
  - done.
  - done.
Qed.

(** ** Pass groups *)

Section SplitFacts.
Context {Mo : Model} {F : Type}.

Lemma enumerate_snd {A : Type} (l : list A) : (enumerate l).*2 = l.
Proof.
  unfold enumerate. rewrite fmap_imap.
  rewrite (imap_ext _ (const id)) by done.
  by rewrite imap_const, list_fmap_id.
Qed.

Lemma elem_of_enumerate {A : Type} (l : list A) (i : nat) (x : A) :
  (i, x) ∈ enumerate l ↔ l !! i = Some x.
Proof.
  unfold enumerate. rewrite elem_of_lookup_imap. split.
  - by intros (j & y & [= -> ->] & Hy).
  - intros Hx. by exists i, x.
Qed.

(** The loop of [split] appends to [selected] the elements whose index is
    in [select_indices] and to [unselected] the others, in order. *)
Lemma split_loop_filter (select_indices : gset Z)
    (l : list (nat * (UnblindedToken * Pass)))
    (selected unselected : list (UnblindedToken * Pass)) :
  foldl (PassGroup.split_step select_indices) (selected, unselected) l
  = (selected ++ (filter (λ it, Z.of_nat it.1 ∈ select_indices) l).*2,
     unselected ++ (filter (λ it, Z.of_nat it.1 ∉ select_indices) l).*2).
Proof.
  revert selected unselected.
  induction l as [|[idx t] l IH]; intros selected unselected; simpl.
  - by rewrite !app_nil_r.
  - rewrite !filter_cons. simpl. case_bool_decide as Hin.
    + rewrite IH, decide_True, decide_False by tauto.
      simpl. by rewrite <- app_assoc.
    + rewrite IH, decide_False, decide_True by tauto.
      simpl. by rewrite <- app_assoc.
Qed.

Lemma split_tokens (g : PassGroup F) (select_indices : gset Z) :
  _tokens (PassGroup.split g select_indices).1
  = (filter (λ it, Z.of_nat it.1 ∈ select_indices) (enumerate (_tokens g))).*2
  ∧ _tokens (PassGroup.split g select_indices).2
  = (filter (λ it, Z.of_nat it.1 ∉ select_indices) (enumerate (_tokens g))).*2.
Proof. unfold PassGroup.split. by rewrite split_loop_filter. Qed.

Lemma elem_of_filter_enumerate {A : Type} (P : nat * A → Prop)
    `{!∀ it, Decision (P it)} (l : list A) (x : A) :
  x ∈ (filter P (enumerate l)).*2
  ↔ ∃ i, l !! i = Some x ∧ P (i, x).
Proof.
  rewrite list_elem_of_fmap. split.
  - intros ([i y] & -> & Hin). apply list_elem_of_filter in Hin as [HP Hin].
    apply elem_of_enumerate in Hin. by exists i.
  - intros (i & Hx & HP). exists (i, x). split; [done|].
    apply list_elem_of_filter. split; [done|]. by apply elem_of_enumerate.
Qed.

(** C8. [split(select_indices)] returns two groups.  The first holds, in
    the original order, exactly the pairs whose position is in
    [select_indices], the second all the other pairs; both carry the message
    and the factory of the original.  The pairs of the first followed by the
    pairs of the second are a permutation of the original pairs: nothing is
    duplicated and nothing is dropped, whatever the indices. *)
Theorem split_partitions_by_index (g : PassGroup F) (select_indices : gset Z) :
  let first := (PassGroup.split g select_indices).1 in
  let second := (PassGroup.split g select_indices).2 in
  _tokens first
  = (filter (λ it, Z.of_nat it.1 ∈ select_indices) (enumerate (_tokens g))).*2 ∧
  _tokens second
  = (filter (λ it, Z.of_nat it.1 ∉ select_indices) (enumerate (_tokens g))).*2 ∧
  (∀ t, t ∈ _tokens first
        ↔ ∃ i : nat, _tokens g !! i = Some t ∧ Z.of_nat i ∈ select_indices) ∧
  (∀ t, t ∈ _tokens second
        ↔ ∃ i : nat, _tokens g !! i = Some t ∧ Z.of_nat i ∉ select_indices) ∧
  _tokens first `sublist_of` _tokens g ∧
  _tokens second `sublist_of` _tokens g ∧
  _message first = _message g ∧ _factory first = _factory g ∧
  _message second = _message g ∧ _factory second = _factory g ∧
  _tokens first ++ _tokens second ≡ₚ _tokens g ∧
  (length (_tokens first) + length (_tokens second) = length (_tokens g))%nat.
Proof.
  intros first second.
  destruct (split_tokens g select_indices) as [Hfirst Hsecond].
  fold first in Hfirst. fold second in Hsecond.
  assert (Hperm : _tokens first ++ _tokens second ≡ₚ _tokens g).
  { rewrite Hfirst, Hsecond, <- fmap_app.
    rewrite (filter_app_complement
               (λ it : nat * (UnblindedToken * Pass),
                  Z.of_nat it.1 ∈ select_indices)).
    by rewrite enumerate_snd. }
  split_and!; try done.
  - intros t. rewrite Hfirst.
    apply (elem_of_filter_enumerate (λ it, Z.of_nat it.1 ∈ select_indices)).
  - intros t. rewrite Hsecond.
    apply (elem_of_filter_enumerate (λ it, Z.of_nat it.1 ∉ select_indices)).
  - rewrite Hfirst. rewrite <- (enumerate_snd (_tokens g)) at 2.
    apply fmap_sublist, sublist_filter.
  - rewrite Hsecond. rewrite <- (enumerate_snd (_tokens g)) at 2.
    apply fmap_sublist, sublist_filter.
  - subst first. unfold PassGroup.split.
    by destruct (foldl _ _ _).
  - subst first. unfold PassGroup.split.
    by destruct (foldl _ _ _).
  - subst second. unfold PassGroup.split.
    by destruct (foldl _ _ _).
  - subst second. unfold PassGroup.split.
    by destruct (foldl _ _ _).
  - by rewrite <- length_app, Hperm.
Qed.

End SplitFacts.

(** ** The spending controller *)

Section SpendingFacts.
Context {Mo : Model}.

Lemma emit_then_store {A : Type} (r : log_record)
    (f : Store → Store * result A) (w : spending_world) :
  (emit r ;; on_store f) w
  = ({| store := (f (store w)).1; log := log w ++ [r] |}, (f (store w)).2).
Proof.
  unfold mbind, M_bind, emit, on_store. simpl.
  destruct (f (store w)) as [s [a|e]]; done.
Qed.

(** C9 (as amended). A [PassGroup] keeps no record of the terminal calls
    made on it.  In every world, so also after an earlier terminal call on
    the same group, [mark_spent], [mark_invalid] and [reset] log their record
    with the number of the group's tokens and hand the group's unblinded
    tokens to the controller's discard, invalidate or reset callable; the
    call returns what that callable returns, and the group raises nothing of
    its own. *)
Theorem terminal_calls_always_forward (g : PassGroup SpendingController)
    (reason : string) (w : spending_world) :
  let tokens := PassGroup.unblinded_tokens g in
  let count := Z.of_nat (length tokens) in
  let discarded := discard_unblinded_tokens (_factory g) tokens (store w) in
  let invalidated :=
    invalidate_unblinded_tokens (_factory g) reason tokens (store w) in
  let returned := reset_unblinded_tokens (_factory g) tokens (store w) in
  PassGroup.mark_spent g w
  = ({| store := discarded.1; log := log w ++ [SPENT_PASSES count] |},
     discarded.2) ∧
  PassGroup.mark_invalid g reason w
  = ({| store := invalidated.1; log := log w ++ [INVALID_PASSES reason count] |},
     invalidated.2) ∧
  PassGroup.reset g w
  = ({| store := returned.1; log := log w ++ [RESET_PASSES count] |},
     returned.2).
Proof.
  intros tokens count discarded invalidated returned. split_and!.
  - apply (emit_then_store (SPENT_PASSES count)).
  - apply (emit_then_store (INVALID_PASSES reason count)).
  - apply (emit_then_store (RESET_PASSES count)).
Qed.

(** Decoding fails with [UnicodeDecodeError] and nothing else. *)
Lemma utf8_decode_N_raises l e :
  utf8_decode_N l = Raise e → e = UnicodeDecodeError.
Proof.
  revert e. induction l as [l IH] using (induction_ltof1 _ (@length N)).
  unfold ltof in IH. intros e.
  destruct l as [|b0 r0]; simpl; [done|].
  repeat
    match goal with
    | |- context [if ?c then _ else _] => destruct c
    | |- context [match ?r with [] => _ | _ :: _ => _ end] => destruct r
    | |- Raise _ = Raise _ → _ => by intros [= <-]
    | |- _ <$> utf8_decode_N ?r = Raise _ → _ =>
        let E := fresh in
        destruct (utf8_decode_N r) eqn:E; simpl; [done|];
        intros [= <-]; apply (IH r); [simpl; lia | done]
    end.
Qed.

(** C10. When the message is not valid UTF-8, the tokens are drawn and the
    passes made, and then [get] raises [UnicodeDecodeError] while it builds
    the [GET_PASSES] record: no group is returned and nothing is logged, and
    the store is left as the draw left it, the drawn tokens taken out. *)
Theorem get_draws_then_fails_to_decode (c : SpendingController)
    (message : bytes) (num_passes : Z) (w : spending_world)
    (drawn_store : Store) (unblinded_tokens : list UnblindedToken)
    (passes : list Pass) :
  (∀ text, utf8_decode message ≠ Ok text) →
  get_unblinded_tokens c num_passes (store w) = (drawn_store, Ok unblinded_tokens) →
  tokens_to_passes c message unblinded_tokens = Ok passes →
  SpendingController.get c message num_passes w
  = ({| store := drawn_store; log := log w |}, Raise UnicodeDecodeError).
Proof.
  intros Hbad Hdraw Hpasses. unfold SpendingController.get.
  unfold mbind at 1, M_bind at 1, on_store. rewrite Hdraw.
  unfold mbind at 1, M_bind at 1, lift. rewrite Hpasses.
  unfold mbind at 1, M_bind at 1.
  destruct (utf8_decode message) as [text|e] eqn:Hdecode.
  - by destruct (Hbad text).
  - by rewrite (utf8_decode_N_raises _ _ Hdecode).
Qed.

End SpendingFacts.

(** ** The model on concrete inputs *)

Section Concrete.
Import Demo.
#[local] Existing Instances common privacypass server model.

Example good_pass_is_valid :
  _is_invalid_pass signing_key
    (slot_testv_and_readv_and_writev_message storage_index) good_pass
  = Ok false.
Proof. reflexivity. Qed.

(** A pass is bound to its message: the same pass does not verify for the
    lease message. *)
Example good_pass_is_bound :
  _is_invalid_pass signing_key (add_lease_message storage_index) good_pass
  = Ok true.
Proof. reflexivity. Qed.

Example bad_pass_is_invalid :
  _is_invalid_pass signing_key
    (slot_testv_and_readv_and_writev_message storage_index) bad_pass
  = Ok true.
Proof. reflexivity. Qed.

Example split_drawn :
  PassGroup.split drawn {[ 1 ]}
  = (PassGroup.evolve drawn [(2, (text_message, 2))]%nat,
     PassGroup.evolve drawn [(1, (text_message, 1))]%nat).
Proof. reflexivity. Qed.

Example allocation_scenario :
  (remote_allocate_buckets signing_key [bad_pass] storage_index [] []
     {[ 0; 1; 2 ]} 2500000 tt expired).2
  = Raise (MorePassesRequired 0 3).
Proof. vm_compute. reflexivity. Qed.

(** With a lease until 100 and the clock at 50, a write up to position
    500 000 goes through with no passes, and no validation is run. *)
Lemma slot_write_forwarded_without_passes_witness :
  (has_writes one_write = false ∨
   ∃ leases lease,
     get_slot_leases storage_index (storage leased) = Ok leases ∧
     lease ∈ leases ∧ active_at (clock leased) lease) ∧
  remote_slot_testv_and_readv_and_writev signing_key [] storage_index tt
    one_write tt leased
  = (after leased (storage leased)
       [ClockSeconds; GetSlotLeases storage_index;
        SlotTestvAndReadvAndWritev storage_index tt one_write tt false],
     Ok tt).
Proof.
  assert (Hcase : has_writes one_write = false ∨
                  ∃ leases lease,
                    get_slot_leases storage_index (storage leased) = Ok leases ∧
                    lease ∈ leases ∧ active_at (clock leased) lease).
  { right. exists [{| get_expiration_time := 100 |}], {| get_expiration_time := 100 |}.
    split; [reflexivity|]. split; [apply list_elem_of_here | reflexivity]. }
  split; [exact Hcase|].
  destruct (slot_write_forwarded_without_passes (SC:=common) (PP:=privacypass) (RS:=server) signing_key [] storage_index tt
              one_write tt leased Hcase) as [Hrun _].
  rewrite Hrun. vm_compute. reflexivity.
Defined.

(** With the lease run out, the same write needs one valid pass: with one
    the write is made and told to renew the leases, with none the call
    raises and the storage is as before. *)
Lemma slot_write_checks_passes_witness :
  has_writes one_write = true ∧
  get_slot_leases storage_index (storage expired)
  = Ok [{| get_expiration_time := 10 |}] ∧
  (∀ lease, lease ∈ [{| get_expiration_time := 10 |}] →
            ¬ active_at (clock expired) lease) ∧
  remote_slot_testv_and_readv_and_writev signing_key [good_pass] storage_index
    tt one_write tt expired
  = (after expired
       [(storage_index, {| get_expiration_time := 100 |});
        (storage_index, {| get_expiration_time := 10 |})]
       [ClockSeconds; GetSlotLeases storage_index;
        ValidatePasses (slot_testv_and_readv_and_writev_message storage_index)
          [good_pass];
        SlotTestvAndReadvAndWritev storage_index tt one_write tt true],
     Ok tt) ∧
  remote_slot_testv_and_readv_and_writev signing_key [bad_pass] storage_index
    tt one_write tt expired
  = (after expired (storage expired)
       [ClockSeconds; GetSlotLeases storage_index;
        ValidatePasses (slot_testv_and_readv_and_writev_message storage_index)
          [bad_pass]],
     Raise (MorePassesRequired 0 1)).
Proof.
  assert (Hw : has_writes one_write = true) by (vm_compute; reflexivity).
  assert (Hleases : get_slot_leases storage_index (storage expired)
                    = Ok [{| get_expiration_time := 10 |}]) by reflexivity.
  assert (Hnone : ∀ lease, lease ∈ [{| get_expiration_time := 10 |}] →
                           ¬ active_at (clock expired) lease).
  { intros lease Hin. apply list_elem_of_singleton in Hin as ->.
    unfold active_at. simpl. apply Qle_not_lt. unfold Qle. simpl. lia. }
  split; [exact Hw|]. split; [exact Hleases|]. split; [exact Hnone|]. split.
  - destruct (slot_write_checks_passes (SC:=common) (PP:=privacypass) (RS:=server) signing_key [good_pass] storage_index tt
                one_write tt expired _ Hw Hleases Hnone)
      as (allocated_size & Hsize & Hrun).
    rewrite Hrun. vm_compute in Hsize. injection Hsize as <-.
    vm_compute. reflexivity.
  - destruct (slot_write_checks_passes (SC:=common) (PP:=privacypass) (RS:=server) signing_key [bad_pass] storage_index tt
                one_write tt expired _ Hw Hleases Hnone)
      as (allocated_size & Hsize & Hrun).
    rewrite Hrun. vm_compute in Hsize. injection Hsize as <-.
    vm_compute. reflexivity.
Defined.

(** Three passes pay for 2 500 000 bytes at a million bytes a pass, for one
    share or for three. *)
Lemma required_passes_is_ceiling_witness :
  0 < 1000000 ∧ 0 ≤ 2500000 ∧
  required_for_bytes 1000000 2500000 = 3 ∧
  required_passes 1000000 {[ 0; 1; 2 ]} 2500000
  = required_passes 1000000 {[ 0 ]} 2500000.
Proof.
  assert (Hb : 0 < 1000000) by lia.
  assert (Hs : 0 ≤ 2500000) by lia.
  destruct (required_passes_is_ceiling 1000000 2500000 Hb Hs)
    as (Hceil & _ & _ & _ & _ & Hshares).
  split; [exact Hb|]. split; [exact Hs|]. split.
  - symmetry. apply Hceil. lia.
  - apply Hshares.
Defined.

(** C6 (what the code does). [remote_add_lease] called with one pass that
    is not valid, and [remote_renew_lease] called with no pass at all, are
    both forwarded to the wrapped server, which extends the lease to 200,
    although the docstrings of both methods say that clients can extend a
    lease only if they present valid passes. *)
Theorem lease_calls_proceed_without_valid_passes :
  _validate_passes signing_key (add_lease_message storage_index) [bad_pass]
  = Ok [] ∧
  remote_add_lease signing_key [bad_pass] storage_index tt expired
  = (after expired
       [(storage_index, {| get_expiration_time := 200 |});
        (storage_index, {| get_expiration_time := 10 |})]
       [ValidatePasses (add_lease_message storage_index) [bad_pass];
        AddLease storage_index tt],
     Ok tt) ∧
  remote_renew_lease signing_key [] storage_index tt expired
  = (after expired
       [(storage_index, {| get_expiration_time := 200 |});
        (storage_index, {| get_expiration_time := 10 |})]
       [ValidatePasses (renew_lease_message storage_index) [];
        RenewLease storage_index tt],
     Ok tt).
Proof.
  split; [reflexivity|].
  destruct (lease_calls_forward_whatever_the_passes (SC:=common) (PP:=privacypass) (RS:=server) signing_key [bad_pass]
              storage_index tt expired) as [Hadd _].
  destruct (lease_calls_forward_whatever_the_passes (SC:=common) (PP:=privacypass) (RS:=server) signing_key []
              storage_index tt expired) as [_ Hrenew].
  by rewrite Hadd, Hrenew.
Qed.

(** After [mark_spent] on the group drawn from the stocked inventory, a second
    [mark_spent] on the same group returns normally and hands the same two
    tokens to the inventory again, and a [reset] after that puts the spent
    tokens back in the available pool: nothing is raised. *)
Lemma second_terminal_call_is_forwarded :
  ∃ w1 w2 w3,
    SpendingController.get controller text_message 2 stocked = (w1, Ok drawn) ∧
    PassGroup.mark_spent drawn w1 = (w2, Ok tt) ∧
    PassGroup.mark_spent drawn w2 = (w3, Ok tt) ∧
    journal (store w3) = [Discarded [1; 2]; Discarded [1; 2]]%nat ∧
    log w3 = [GET_PASSES [109%N] 2; SPENT_PASSES 2; SPENT_PASSES 2] ∧
    PassGroup.reset drawn w3
    = ({| store := {| available := [3; 1; 2]%nat;
                      journal := [Discarded [1; 2]; Discarded [1; 2];
                                  WasReset [1; 2]]%nat |};
          log := [GET_PASSES [109%N] 2; SPENT_PASSES 2; SPENT_PASSES 2;
                  RESET_PASSES 2] |},
       Ok tt).
Proof. eexists _, _, _. split_and!; reflexivity. Qed.

(** Two tokens are drawn for a message that is no UTF-8: [get] raises, the
    caller gets no group, and only the third token is left available. *)
Lemma get_draws_then_fails_to_decode_witness :
  (∀ text, utf8_decode binary_message ≠ Ok text) ∧
  get_unblinded_tokens controller 2 (store stocked)
  = ({| available := [3]%nat; journal := [] |}, Ok [1; 2]%nat) ∧
  SpendingController.get controller binary_message 2 stocked
  = ({| store := {| available := [3]%nat; journal := [] |}; log := [] |},
     Raise UnicodeDecodeError).
Proof.
  assert (Hbad : ∀ text, utf8_decode binary_message ≠ Ok text).
  { intros text. vm_compute. discriminate. }
  split; [exact Hbad|]. split; [reflexivity|].
  apply (get_draws_then_fails_to_decode (Mo:=model) controller binary_message 2 stocked
           {| available := [3]%nat; journal := [] |} [1; 2]%nat
           [(binary_message, 1); (binary_message, 2)]%nat Hbad);
    reflexivity.
Defined.

End Concrete.

(** ** More on the write vectors *)

(** X1. [get_sharenums] returns exactly the share numbers that are keys of
    [tw_vectors] with a non-empty data vector; a share with test vectors
    only, or with an empty data vector, is not among them. *)
Theorem get_sharenums_written (tw : tw_vectors) (sharenum : Z) :
  sharenum ∈ get_sharenums tw
  ↔ ∃ test data new_length,
      tw !! sharenum = Some (test, data, new_length) ∧ data ≠ [].
Proof.
  unfold get_sharenums. rewrite elem_of_list_to_set, list_elem_of_fmap. split.
  - intros ([k [[test data] new_length]] & -> & Hin).
    apply list_elem_of_filter in Hin as [Hdata Hin].
    apply elem_of_map_to_list in Hin. by exists test, data, new_length.
  - intros (test & data & new_length & Hlookup & Hdata).
    exists (sharenum, (test, data, new_length)). split; [done|].
    apply list_elem_of_filter. split; [done|]. by apply elem_of_map_to_list.
Qed.

Lemma mapM_result_inv {A B : Type} (f : A → result B) (l : list A) (ys : list B) :
  mapM f l = Ok ys → Forall2 (λ x y, f x = Ok y) l ys.
Proof.
  revert ys. induction l as [|x l IH]; intros ys; simpl.
  - intros [= <-]. constructor.
  - destruct (f x) as [y|e] eqn:Hy; simpl; [|done].
    destruct (mapM f l) as [ys'|e]; simpl; [|done].
    intros [= <-]. constructor; [done|]. by apply IH.
Qed.

Lemma foldl_max_ge (l : list Z) (x : Z) :
  x ≤ foldl Z.max x l ∧ ∀ y, y ∈ l → y ≤ foldl Z.max x l.
Proof.
  revert x. induction l as [|z l IH]; intros x; simpl.
  - split; [lia|]. intros y Hy. by apply elem_of_nil in Hy.
  - destruct (IH (Z.max x z)) as [Hx Hl]. split; [lia|].
    intros y Hy. apply elem_of_cons in Hy as [->|Hy]; [lia|]. by apply Hl.
Qed.

Lemma foldl_max_in (l : list Z) (x : Z) :
  foldl Z.max x l = x ∨ foldl Z.max x l ∈ l.
Proof.
  revert x. induction l as [|z l IH]; intros x; simpl; [by left|].
  destruct (IH (Z.max x z)) as [Heq|Hin].
  - rewrite Heq. destruct (Z.max_spec x z) as [[_ ->]|[_ ->]].
    + right. apply list_elem_of_here.
    + by left.
  - right. by apply list_elem_of_further.
Qed.

(** [max] returns an element of the list that bounds all the others. *)
Lemma py_max_spec (l : list Z) (m : Z) :
  py_max l = Ok m → m ∈ l ∧ ∀ y, y ∈ l → y ≤ m.
Proof.
  destruct l as [|x l]; simpl; [done|]. intros [= <-]. split.
  - destruct (foldl_max_in l x) as [->|Hin].
    + apply list_elem_of_here.
    + by apply list_elem_of_further.
  - intros y Hy. destruct (foldl_max_ge l x) as [Hx Hl].
    apply elem_of_cons in Hy as [->|Hy]; [done|]. by apply Hl.
Qed.

Lemma data_extent_spec (data : data_vector) (m : Z) :
  data_extent data = Ok m →
  (∃ offset s, (offset, s) ∈ data ∧ m = offset + Z.of_nat (length s)) ∧
  (∀ offset s, (offset, s) ∈ data → offset + Z.of_nat (length s) ≤ m).
Proof.
  intros Hm. apply py_max_spec in Hm as [Hin Hle]. split.
  - apply list_elem_of_fmap in Hin as ([offset s] & -> & Hin). eauto.
  - intros offset s Hos. apply Hle.
    apply list_elem_of_fmap. by exists (offset, s).
Qed.

(** X2. [get_allocated_size] raises [ValueError] exactly when the vectors
    write nothing (no share, or only shares with an empty data vector):
    the outer [max] is then taken over an empty list.  In every other case
    it returns. *)
Theorem get_allocated_size_raises_iff_no_write (tw : tw_vectors) :
  (get_allocated_size tw = Raise ValueError ↔ get_sharenums tw = ∅) ∧
  (get_sharenums tw ≠ ∅ ↔ ∃ size, get_allocated_size tw = Ok size).
Proof.
  assert (Hno : get_sharenums tw = ∅ → get_allocated_size tw = Raise ValueError).
  { intros Hempty. unfold get_allocated_size.
    destruct (filter writes_data (map_to_list tw)) as [|item items] eqn:Hf.
    - done.
    - assert (Hw : has_writes tw = true).
      { apply has_writes_filter. by rewrite Hf. }
      unfold has_writes in Hw. apply bool_decide_eq_true in Hw. done. }
  assert (Hyes : get_sharenums tw ≠ ∅ → ∃ size, get_allocated_size tw = Ok size).
  { intros Hne. apply get_allocated_size_returns.
    unfold has_writes. by apply bool_decide_eq_true. }
  split; split.
  - intros Hraise. destruct (decide (get_sharenums tw = ∅)) as [|Hne]; [done|].
    destruct (Hyes Hne) as [size Hsize]. congruence.
  - exact Hno.
  - exact Hyes.
  - intros [size Hsize] Hempty. rewrite (Hno Hempty) in Hsize. done.
Qed.

(** X3. When [get_allocated_size] returns, its result is the largest
    position written: every fragment [(offset, s)] of every share ends at or
    before it, and some fragment of some share ends exactly there. *)
Theorem get_allocated_size_is_largest_position (tw : tw_vectors) (size : Z) :
  get_allocated_size tw = Ok size →
  (∀ sharenum test data new_length offset s,
     tw !! sharenum = Some (test, data, new_length) → (offset, s) ∈ data →
     offset + Z.of_nat (length s) ≤ size) ∧
  (∃ sharenum test data new_length offset s,
     tw !! sharenum = Some (test, data, new_length) ∧ (offset, s) ∈ data ∧
     size = offset + Z.of_nat (length s)).
Proof.
  unfold get_allocated_size. intros Hsize.
  apply result_bind_Ok in Hsize as (extents & Hextents & Hmax).
  apply mapM_result_inv in Hextents.
  apply py_max_spec in Hmax as [Hin Hle]. split.
  - intros sharenum test data new_length offset s Hlookup Hos.
    assert (Hitem : (sharenum, (test, data, new_length))
                    ∈ filter writes_data (map_to_list tw)).
    { apply list_elem_of_filter. split.
      - unfold writes_data, item_data. simpl. intros ->.
        by apply elem_of_nil in Hos.
      - by apply elem_of_map_to_list. }
    apply list_elem_of_lookup in Hitem as [i Hi].
    destruct (Forall2_lookup_l _ _ _ _ _ Hextents Hi) as (m & Hm & Hext).
    apply data_extent_spec in Hext as [_ Hbound].
    etrans; [by apply Hbound|]. apply Hle.
    apply list_elem_of_lookup. eauto.
  - apply list_elem_of_lookup in Hin as [i Hi].
    destruct (Forall2_lookup_r _ _ _ _ _ Hextents Hi)
      as ([sharenum [[test data] new_length]] & Hitem & Hext).
    apply data_extent_spec in Hext as [(offset & s & Hos & ->) _].
    apply list_elem_of_lookup_2 in Hitem.
    apply list_elem_of_filter in Hitem as [_ Hitem].
    apply elem_of_map_to_list in Hitem.
    by exists sharenum, test, data, new_length, offset, s.
Qed.

(** ** More on the wrapper *)

Section MoreServerFacts.
Context {SC : StorageCommon} {PP : PrivacyPass} {RS : RIStorageServer}.
Variable sk : SigningKey.

(** X4. [has_active_lease] only reads: when the lease lookup returns, the
    storage is as before, and the answer is [True] exactly when some lease of
    the storage index expires strictly after [now]; a lease that expires at
    [now] itself, or no lease at all, gives [False].  When the lookup raises,
    so does [has_active_lease]. *)
Theorem has_active_lease_strictly_after (storage_index : bytes) (now : Q)
    (w : world) :
  (∀ leases, get_slot_leases storage_index (storage w) = Ok leases →
     ∃ b : bool,
       has_active_lease storage_index now w
       = (after w (storage w) [GetSlotLeases storage_index], Ok b) ∧
       (b = true ↔ ∃ lease, lease ∈ leases ∧ (now < get_expiration_time lease)%Q) ∧
       (b = false ↔ ∀ lease, lease ∈ leases → (get_expiration_time lease <= now)%Q)) ∧
  (∀ e, get_slot_leases storage_index (storage w) = Raise e →
     has_active_lease storage_index now w
     = (after w (storage w) [GetSlotLeases storage_index], Raise e)).
Proof.
  split.
  - intros leases Hleases. eexists. split; [by apply has_active_lease_run|].
    split; [apply existsb_active|].
    rewrite <- not_true_iff_false, existsb_active. unfold active_at. split.
    + intros Hnone lease Hin. apply Qnot_lt_le. intros Hlt. apply Hnone. eauto.
    + intros Hall (lease & Hin & Hlt). by apply Qlt_not_le in Hlt; apply Hlt, Hall.
  - intros e Hraise. unfold has_active_lease.
    unfold mbind at 1, M_bind at 1. rewrite note_run.
    unfold mbind at 1, M_bind at 1. rewrite on_storage_run. simpl.
    rewrite Hraise. by rewrite after_after.
Qed.

(** X6. A pass that is found valid contains exactly one space: with none, or
    with more than one, the unpacking of the split fails and the pass is
    counted as invalid. *)
Theorem valid_pass_has_one_space (message : unicode) (pass_ : bytes) :
  is_valid_pass sk message pass_ →
  length (filter (λ b, b = " "%byte) pass_) = 1%nat.
Proof.
  intros Hvalid. apply is_valid_pass_body in Hvalid.
  unfold is_invalid_pass_body in Hvalid.
  apply result_bind_Ok in Hvalid as ([pre sig] & Hunpack & _).
  pose proof (bytes_split_length " " pass_) as Hlen.
  destruct (bytes_split " " pass_) as [|a [|b [|c l]]]; simpl in *; try done.
  lia.
Qed.

Lemma validate_passes_replicate (message : unicode) (pass_ : bytes) (n : nat) :
  is_valid_pass sk message pass_ →
  filter (is_valid_pass sk message) (replicate n pass_) = replicate n pass_.
Proof.
  intros Hvalid. induction n as [|n IH]; simpl; [done|].
  by rewrite filter_cons, decide_True, IH.
Qed.

(** The outcome of [remote_allocate_buckets], by the number of valid
    passes. *)
Lemma remote_allocate_buckets_run (passes : list bytes)
    (storage_index renew_secret cancel_secret : bytes) (sharenums : gset Z)
    (allocated_size : Z) (canary : Canary) (w : world) :
  let message := allocate_buckets_message storage_index in
  let valid_count :=
    Z.of_nat (length (filter (is_valid_pass sk message) passes)) in
  let required_count := required_passes BYTES_PER_PASS sharenums allocated_size in
  let forwarded :=
    original_remote_allocate_buckets storage_index renew_secret cancel_secret
      sharenums allocated_size canary (storage w) in
  remote_allocate_buckets sk passes storage_index renew_secret cancel_secret
    sharenums allocated_size canary w
  = if valid_count <? required_count
    then (after w (storage w) [ValidatePasses message passes],
          Raise (MorePassesRequired valid_count required_count))
    else (after w forwarded.1
            [ValidatePasses message passes;
             AllocateBuckets storage_index renew_secret cancel_secret
               sharenums allocated_size canary],
          forwarded.2).
Proof.
  intros message valid_count required_count forwarded.
  unfold remote_allocate_buckets.
  unfold mbind at 1, M_bind at 1. rewrite validate_passes_run.
  fold message. fold valid_count.
  unfold mbind at 1, M_bind at 1, lift, check_pass_quantity_for_write.
  fold required_count.
  destruct (valid_count <? required_count); [done|].
  by rewrite forward_run, after_after.
Qed.

(** X5. The wrapper does not look for repeated passes: one valid pass
    presented [n] times counts as [n] valid passes, so an allocation that
    requires up to [n] passes is forwarded when the same valid pass is sent
    [n] times. *)
Theorem repeated_pass_counts_each_time (pass_ : bytes) (n : nat)
    (storage_index renew_secret cancel_secret : bytes) (sharenums : gset Z)
    (allocated_size : Z) (canary : Canary) (w : world) :
  is_valid_pass sk (allocate_buckets_message storage_index) pass_ →
  required_passes BYTES_PER_PASS sharenums allocated_size ≤ Z.of_nat n →
  _validate_passes sk (allocate_buckets_message storage_index)
    (replicate n pass_)
  = Ok (replicate n pass_) ∧
  remote_allocate_buckets sk (replicate n pass_) storage_index renew_secret
    cancel_secret sharenums allocated_size canary w
  = (after w
       (original_remote_allocate_buckets storage_index renew_secret
          cancel_secret sharenums allocated_size canary (storage w)).1
       [ValidatePasses (allocate_buckets_message storage_index)
          (replicate n pass_);
        AllocateBuckets storage_index renew_secret cancel_secret sharenums
          allocated_size canary],
     (original_remote_allocate_buckets storage_index renew_secret
        cancel_secret sharenums allocated_size canary (storage w)).2).
Proof.
  intros Hvalid Hrequired. split.
  - by rewrite validate_passes_filter, validate_passes_replicate.
  - rewrite remote_allocate_buckets_run. cbv zeta.
    rewrite validate_passes_replicate, length_replicate by done.
    by rewrite (proj2 (Z.ltb_ge _ _)).
Qed.

(** X7. The passes enter the outcome of [remote_allocate_buckets] only
    through the number of valid ones: two lists of passes with the same
    number of valid passes give the same answer (or the same
    [MorePassesRequired]) and leave the same storage.  In particular passes
    that are not valid, wherever they stand in the list, neither help nor
    make the call fail. *)
Theorem allocate_buckets_counts_valid_passes_only (passes passes' : list bytes)
    (storage_index renew_secret cancel_secret : bytes) (sharenums : gset Z)
    (allocated_size : Z) (canary : Canary) (w : world) :
  length (filter (is_valid_pass sk (allocate_buckets_message storage_index)) passes)
  = length (filter (is_valid_pass sk (allocate_buckets_message storage_index)) passes') →
  (remote_allocate_buckets sk passes storage_index renew_secret cancel_secret
     sharenums allocated_size canary w).2
  = (remote_allocate_buckets sk passes' storage_index renew_secret cancel_secret
       sharenums allocated_size canary w).2 ∧
  storage (remote_allocate_buckets sk passes storage_index renew_secret
             cancel_secret sharenums allocated_size canary w).1
  = storage (remote_allocate_buckets sk passes' storage_index renew_secret
               cancel_secret sharenums allocated_size canary w).1.
Proof.
  intros Hcount. rewrite !remote_allocate_buckets_run. cbv zeta.
  rewrite Hcount. by destruct (_ <? _).
Qed.

End MoreServerFacts.

(** ** More on pass groups and the controller *)

Lemma fst_zip_take {A B : Type} (l : list A) (k : list B) :
  (zip l k).*1 = take (length k) l.
Proof.
  revert k. induction l as [|x l IH]; intros [|y k]; simpl; try done.
  by rewrite IH.
Qed.

Lemma snd_zip_take {A B : Type} (l : list A) (k : list B) :
  (zip l k).*2 = take (length l) k.
Proof.
  revert k. induction l as [|x l IH]; intros [|y k]; simpl; try done.
  by rewrite IH.
Qed.

Lemma filter_ext_in {A : Type} (P Q : A → Prop) `{!∀ x, Decision (P x)}
    `{!∀ x, Decision (Q x)} (l : list A) :
  (∀ x, x ∈ l → P x ↔ Q x) → filter P l = filter Q l.
Proof.
  induction l as [|x l IH]; intros Hext; [done|].
  rewrite !filter_cons.
  rewrite IH by (intros y Hy; apply Hext; by apply list_elem_of_further).
  pose proof (Hext x (list_elem_of_here x l)) as Hx.
  destruct (decide (P x)), (decide (Q x)); tauto || done.
Qed.

Lemma filter_none {A : Type} (P : A → Prop) `{!∀ x, Decision (P x)}
    (l : list A) :
  (∀ x, x ∈ l → ¬ P x) → filter P l = [].
Proof.
  induction l as [|x l IH]; intros Hnone; [done|].
  rewrite filter_cons, decide_False by (apply Hnone, list_elem_of_here).
  apply IH. intros y Hy. by apply Hnone, list_elem_of_further.
Qed.

Lemma filter_all {A : Type} (P : A → Prop) `{!∀ x, Decision (P x)}
    (l : list A) :
  (∀ x, x ∈ l → P x) → filter P l = l.
Proof.
  induction l as [|x l IH]; intros Hall; [done|].
  rewrite filter_cons, decide_True by (apply Hall, list_elem_of_here).
  f_equal. apply IH. intros y Hy. by apply Hall, list_elem_of_further.
Qed.

Section GroupFacts.
Context {Mo : Model} {F : Type}.

(** X8. [self + other] is the group of [self] with the pairs of [other]
    appended: its passes are the passes of [self] followed by those of
    [other], likewise its unblinded tokens.  The message and the factory are
    those of [self]; those of [other] are not looked at, also when they
    differ. *)
Theorem add_appends_pairs (self other : PassGroup F) :
  _tokens (PassGroup.add self other) = _tokens self ++ _tokens other ∧
  PassGroup.passes (PassGroup.add self other)
  = PassGroup.passes self ++ PassGroup.passes other ∧
  PassGroup.unblinded_tokens (PassGroup.add self other)
  = PassGroup.unblinded_tokens self ++ PassGroup.unblinded_tokens other ∧
  _message (PassGroup.add self other) = _message self ∧
  _factory (PassGroup.add self other) = _factory self.
Proof.
  unfold PassGroup.add, PassGroup.passes, PassGroup.unblinded_tokens,
    PassGroup.evolve. simpl.
  rewrite zip_fst_snd, !fmap_app. done.
Qed.

(** X9. Only the indices of positions the group has matter to [split]: two
    selections that agree on the positions [0 .. len - 1] give the same two
    groups, so negative indices and indices past the end are ignored.  With
    no position selected the first group is empty and the second has all the
    pairs; with every position selected it is the other way round. *)
Theorem split_ignores_indices_out_of_range (g : PassGroup F)
    (select_indices select_indices' : gset Z) :
  (∀ i : nat, (i < length (_tokens g))%nat →
     Z.of_nat i ∈ select_indices ↔ Z.of_nat i ∈ select_indices') →
  PassGroup.split g select_indices = PassGroup.split g select_indices' ∧
  ((∀ i : nat, (i < length (_tokens g))%nat → Z.of_nat i ∉ select_indices) →
   PassGroup.split g select_indices
   = (PassGroup.evolve g [], PassGroup.evolve g (_tokens g))) ∧
  ((∀ i : nat, (i < length (_tokens g))%nat → Z.of_nat i ∈ select_indices) →
   PassGroup.split g select_indices
   = (PassGroup.evolve g (_tokens g), PassGroup.evolve g [])).
Proof.
  assert (Hrange : ∀ it, it ∈ enumerate (_tokens g) →
                         (it.1 < length (_tokens g))%nat).
  { intros [i t] Hin. apply elem_of_enumerate in Hin.
    by apply lookup_lt_Some in Hin. }
  assert (Hsplit : ∀ sel,
    PassGroup.split g sel
    = (PassGroup.evolve g
         (filter (λ it, Z.of_nat it.1 ∈ sel) (enumerate (_tokens g))).*2,
       PassGroup.evolve g
         (filter (λ it, Z.of_nat it.1 ∉ sel) (enumerate (_tokens g))).*2)).
  { intros sel. unfold PassGroup.split. by rewrite split_loop_filter. }
  intros Hagree. split_and!.
  - rewrite !Hsplit. f_equal; f_equal; f_equal; apply filter_ext_in.
    + intros it Hin. by apply Hagree, Hrange.
    + intros it Hin. by rewrite (Hagree _ (Hrange it Hin)).
  - intros Hnone. rewrite Hsplit. f_equal; f_equal.
    + rewrite filter_none; [done|].
      intros it Hin. by apply Hnone, Hrange.
    + rewrite filter_all; [by rewrite enumerate_snd|].
      intros it Hin. by apply Hnone, Hrange.
  - intros Hall. rewrite Hsplit. f_equal; f_equal.
    + rewrite filter_all; [by rewrite enumerate_snd|].
      intros it Hin. by apply Hall, Hrange.
    + rewrite filter_none; [done|].
      intros it Hin Hnot. by apply Hnot, Hall, Hrange.
Qed.

End GroupFacts.

Section ControllerFacts.
Context {Mo : Model}.

Lemma get_run (c : SpendingController) (message : bytes) (num_passes : Z)
    (w : spending_world) (drawn_store : Store)
    (unblinded_tokens : list UnblindedToken) (passes : list Pass)
    (text : list N) :
  get_unblinded_tokens c num_passes (store w) = (drawn_store, Ok unblinded_tokens) →
  tokens_to_passes c message unblinded_tokens = Ok passes →
  utf8_decode message = Ok text →
  SpendingController.get c message num_passes w
  = ({| store := drawn_store; log := log w ++ [GET_PASSES text num_passes] |},
     Ok {| _message := message; _factory := c;
           _tokens := zip unblinded_tokens passes |}).
Proof.
  intros Hdraw Hpasses Htext. unfold SpendingController.get.
  unfold mbind at 1, M_bind at 1, on_store. rewrite Hdraw.
  unfold mbind at 1, M_bind at 1, lift. rewrite Hpasses.
  unfold mbind at 1, M_bind at 1. rewrite Htext.
  done.
Qed.

(** X10. When the draw and the conversion return and the message is valid
    UTF-8, [get] logs one [GET_PASSES] record with the decoded message and the
    requested count, leaves the store as the draw left it, and returns a group
    bound to the message and to the controller whose pairs are [zip] of the
    tokens drawn and the passes made.  The size of the group is not compared
    with [num_passes]: when the conversion returns fewer passes than tokens
    the tokens in excess are in no pair of the group, and with as many passes
    as tokens the group holds exactly the tokens drawn. *)
Theorem get_returns_zipped_group (c : SpendingController) (message : bytes)
    (num_passes : Z) (w : spending_world) (drawn_store : Store)
    (unblinded_tokens : list UnblindedToken) (passes : list Pass)
    (text : list N) :
  get_unblinded_tokens c num_passes (store w) = (drawn_store, Ok unblinded_tokens) →
  tokens_to_passes c message unblinded_tokens = Ok passes →
  utf8_decode message = Ok text →
  ∃ g,
    SpendingController.get c message num_passes w
    = ({| store := drawn_store; log := log w ++ [GET_PASSES text num_passes] |},
       Ok g) ∧
    _message g = message ∧ _factory g = c ∧
    _tokens g = zip unblinded_tokens passes ∧
    PassGroup.unblinded_tokens g = take (length passes) unblinded_tokens ∧
    PassGroup.passes g = take (length unblinded_tokens) passes ∧
    (length passes = length unblinded_tokens →
       PassGroup.unblinded_tokens g = unblinded_tokens ∧
       PassGroup.passes g = passes).
Proof.
  intros Hdraw Hpasses Htext. eexists. split; [by apply get_run|].
  unfold PassGroup.unblinded_tokens, PassGroup.passes. simpl.
  rewrite fst_zip_take, snd_zip_take. split_and!; try done.
  intros Hlen. rewrite Hlen at 1. by rewrite <- Hlen at 2; rewrite !firstn_all.
Qed.

(** X11. [get] lets the exception of a collaborator through and logs
    nothing.  When the draw raises, no conversion is tried and the store is
    what the failed draw left.  When the conversion raises, the tokens were
    drawn already: the store is the one after the draw and the caller gets
    no group for them. *)
Theorem get_raises_what_its_callables_raise (c : SpendingController)
    (message : bytes) (num_passes : Z) (w : spending_world) :
  (∀ left_store e,
     get_unblinded_tokens c num_passes (store w) = (left_store, Raise e) →
     SpendingController.get c message num_passes w
     = ({| store := left_store; log := log w |}, Raise e)) ∧
  (∀ drawn_store unblinded_tokens e,
     get_unblinded_tokens c num_passes (store w)
     = (drawn_store, Ok unblinded_tokens) →
     tokens_to_passes c message unblinded_tokens = Raise e →
     SpendingController.get c message num_passes w
     = ({| store := drawn_store; log := log w |}, Raise e)).
Proof.
  split.
  - intros left_store e Hdraw. unfold SpendingController.get.
    unfold mbind at 1, M_bind at 1, on_store. by rewrite Hdraw.
  - intros drawn_store unblinded_tokens e Hdraw Hpasses.
    unfold SpendingController.get.
    unfold mbind at 1, M_bind at 1, on_store. rewrite Hdraw.
    unfold mbind at 1, M_bind at 1, lift. by rewrite Hpasses.
Qed.

(** X12. [expand(by_amount)] asks the group's own factory for [by_amount]
    passes for the group's own message and returns a new group: the pairs of
    the original first, in their order, then the pairs just drawn, with the
    same message and factory. *)
Theorem expand_appends_drawn_pairs (g : PassGroup SpendingController)
    (by_amount : Z) (w : spending_world) (drawn_store : Store)
    (unblinded_tokens : list UnblindedToken) (passes : list Pass)
    (text : list N) :
  get_unblinded_tokens (_factory g) by_amount (store w)
  = (drawn_store, Ok unblinded_tokens) →
  tokens_to_passes (_factory g) (_message g) unblinded_tokens = Ok passes →
  utf8_decode (_message g) = Ok text →
  PassGroup.expand g by_amount w
  = ({| store := drawn_store; log := log w ++ [GET_PASSES text by_amount] |},
     Ok {| _message := _message g; _factory := _factory g;
           _tokens := _tokens g ++ zip unblinded_tokens passes |}).
Proof.
  intros Hdraw Hpasses Htext. unfold PassGroup.expand.
  unfold mbind, M_bind. simpl factory_get.
  rewrite (get_run _ _ _ _ _ _ _ _ Hdraw Hpasses Htext).
  unfold mret, M_ret, PassGroup.add, PassGroup.evolve,
    PassGroup.unblinded_tokens, PassGroup.passes. simpl.
  by rewrite zip_fst_snd.
Qed.

Lemma split_factory {F : Type} (g : PassGroup F) (select_indices : gset Z) :
  _factory (PassGroup.split g select_indices).1 = _factory g ∧
  _factory (PassGroup.split g select_indices).2 = _factory g.
Proof. unfold PassGroup.split. by destruct (foldl _ _ _). Qed.

Lemma split_unblinded_tokens_perm {F : Type} (g : PassGroup F)
    (select_indices : gset Z) :
  PassGroup.unblinded_tokens (PassGroup.split g select_indices).1
  ++ PassGroup.unblinded_tokens (PassGroup.split g select_indices).2
  ≡ₚ PassGroup.unblinded_tokens g.
Proof.
  unfold PassGroup.unblinded_tokens.
  destruct (split_tokens g select_indices) as [-> ->].
  rewrite <- !fmap_app.
  rewrite (filter_app_complement
             (λ it : nat * (UnblindedToken * Pass),
                Z.of_nat it.1 ∈ select_indices)).
  by rewrite enumerate_snd.
Qed.

(** X13. After a split, marking the first group spent and resetting the
    second hands every token of the original group to exactly one of the
    two callables: the tokens at the selected positions to the discard
    callable, all the others to the reset callable, and nothing to both. *)
Theorem split_then_spend_and_reset (g : PassGroup SpendingController)
    (select_indices : gset Z) (w : spending_world) :
  let first := (PassGroup.split g select_indices).1 in
  let second := (PassGroup.split g select_indices).2 in
  let spent := PassGroup.unblinded_tokens first in
  let kept := PassGroup.unblinded_tokens second in
  let discarded := discard_unblinded_tokens (_factory g) spent (store w) in
  let returned := reset_unblinded_tokens (_factory g) kept discarded.1 in
  discarded.2 = Ok tt →
  (PassGroup.mark_spent first ;; PassGroup.reset second) w
  = ({| store := returned.1;
        log := log w ++ [SPENT_PASSES (Z.of_nat (length spent));
                         RESET_PASSES (Z.of_nat (length kept))] |},
     returned.2) ∧
  spent ++ kept ≡ₚ PassGroup.unblinded_tokens g ∧
  (length spent + length kept = length (_tokens g))%nat.
Proof.
  intros first second spent kept discarded returned Hdiscard.
  assert (Hperm : spent ++ kept ≡ₚ PassGroup.unblinded_tokens g)
    by apply split_unblinded_tokens_perm.
  split_and!; [|done|].
  - destruct (split_factory g select_indices) as [Hf1 Hf2].
    unfold mbind, M_bind, PassGroup.mark_spent, PassGroup.reset.
    simpl factory_mark_spent. simpl factory_reset.
    unfold SpendingController.mark_spent, SpendingController.reset.
    fold first second. fold first in Hf1. fold second in Hf2.
    rewrite Hf1, Hf2. fold spent kept.
    rewrite emit_then_store. fold discarded. rewrite Hdiscard.
    rewrite emit_then_store. simpl. fold returned.
    by rewrite <- app_assoc.
  - rewrite <- length_app, Hperm. unfold PassGroup.unblinded_tokens.
    by rewrite length_fmap.
Qed.

End ControllerFacts.

(** ** Recovery *)

Lemma stage_name_inj (s1 s2 : RecoveryStages) :
  stage_name s1 = stage_name s2 → s1 = s2.
Proof. destruct s1, s2; simpl; intros Heq; done || by inversion Heq. Qed.

(** X14. [marshal] gives a dictionary with the two keys [stage] and
    [failure-reason] and nothing else, holding the name of the stage and the
    reason; two states marshal to the same dictionary only when they are the
    same state. *)
Theorem marshal_is_faithful (s1 s2 : RecoveryState) :
  marshal s1 !! "stage" = Some (Some (stage_name (stage s1))) ∧
  marshal s1 !! "failure-reason" = Some (failure_reason s1) ∧
  dom (marshal s1) = {[ "stage"; "failure-reason" ]} ∧
  (marshal s1 = marshal s2 ↔ s1 = s2).
Proof.
  assert (Hstage : ∀ s, marshal s !! "stage" = Some (Some (stage_name (stage s)))).
  { intros s. apply (lookup_insert_eq (M:=gmap string)). }
  assert (Hreason : ∀ s, marshal s !! "failure-reason" = Some (failure_reason s)).
  { intros s. unfold marshal.
    rewrite (lookup_insert_ne (M:=gmap string)) by done.
    apply (lookup_singleton_eq (M:=gmap string)). }
  split_and!.
  - apply Hstage.
  - apply Hreason.
  - unfold marshal. rewrite (dom_insert_L (M:=gmap string)).
    by rewrite (dom_singleton_L (M:=gmap string)).
  - split; [|by intros ->]. intros Heq.
    pose proof (Hstage s1) as H1. pose proof (Hreason s1) as H2.
    rewrite Heq, Hstage in H1. rewrite Heq, Hreason in H2.
    destruct s1 as [st1 r1], s2 as [st2 r2]; simpl in *.
    injection H1 as Hname. injection H2 as ->.
    by rewrite (stage_name_inj _ _ (eq_sym Hname)).
Qed.

(** *** Lines and statements *)

Lemma ascii_decode_Ok (s : bytes) :
  Forall (λ b, (Byte.to_N b < 128)%N) s → ascii_decode s = Ok (Byte.to_N <$> s).
Proof.
  intros Hall. unfold ascii_decode.
  replace (forallb _ s) with true; [done|].
  symmetry. apply forallb_forall. intros b Hb.
  apply N.ltb_lt. rewrite Forall_forall in Hall.
  by apply Hall, list_elem_of_In.
Qed.

Lemma ascii_decode_inv (s : bytes) (text : list N) :
  ascii_decode s = Ok text →
  text = Byte.to_N <$> s ∧ Forall (λ c, (c < 128)%N) text.
Proof.
  unfold ascii_decode. destruct (forallb _ s) eqn:Hall; [|done].
  intros [= <-]. split; [done|].
  apply Forall_fmap, Forall_forall. intros b Hb. simpl.
  rewrite forallb_forall in Hall. by apply N.ltb_lt, Hall, list_elem_of_In.
Qed.

Lemma splitlines_line (line rest : list N) :
  Forall (λ c, is_linebreak c = false) line →
  splitlines (line ++ 10%N :: rest) = line :: splitlines rest.
Proof.
  induction 1 as [|c line Hc _ IH]; simpl.
  - done.
  - by rewrite Hc, IH.
Qed.

Lemma splitlines_no_break (s : list N) :
  Forall (Forall (λ c, is_linebreak c = false)) (splitlines s).
Proof.
  induction s as [s IH] using (induction_ltof1 _ (@length N)).
  unfold ltof in IH. destruct s as [|c r]; simpl; [constructor|].
  destruct (is_linebreak c) eqn:Hc.
  - constructor; [constructor|].
    destruct (N.eqb c 13); [|apply IH; simpl; lia].
    destruct r as [|c' r']; [constructor|].
    destruct c' as [|p]; [apply IH; simpl; lia|].
    repeat (destruct p as [p|p|]; try (apply IH; simpl; lia)).
  - pose proof (IH r ltac:(simpl; lia)) as Hr.
    destruct (splitlines r) as [|line lines].
    + repeat constructor. done.
    + inversion Hr; subst. constructor; [by constructor|done].
Qed.

Lemma splitlines_elements (s : list N) :
  Forall (Forall (λ c, c ∈ s)) (splitlines s).
Proof.
  induction s as [s IH] using (induction_ltof1 _ (@length N)).
  unfold ltof in IH. destruct s as [|c r]; simpl; [constructor|].
  assert (Hweak : ∀ r' : list N, (∀ x, x ∈ r' → x ∈ c :: r) →
                    (length r' < length (c :: r))%nat →
                    Forall (Forall (λ x, x ∈ c :: r)) (splitlines r')).
  { intros r' Hsub Hlen. eapply Forall_impl; [by apply IH|].
    intros line Hline. eapply Forall_impl; [exact Hline|]. done. }
  assert (Hr : Forall (Forall (λ x, x ∈ c :: r)) (splitlines r)).
  { apply Hweak; [|simpl; lia]. intros x Hx. by apply list_elem_of_further. }
  destruct (is_linebreak c).
  - constructor; [constructor|].
    destruct (N.eqb c 13); [|done].
    destruct r as [|c' r']; [constructor|].
    assert (Hr' : Forall (Forall (λ x, x ∈ c :: c' :: r')) (splitlines r')).
    { apply Hweak; [|simpl; lia].
      intros x Hx. by do 2 apply list_elem_of_further. }
    destruct c' as [|p]; [done|].
    repeat (destruct p as [p|p|]; try done).
  - destruct (splitlines r) as [|line lines].
    + by repeat constructor.
    + inversion Hr; subst. constructor; [|done].
      constructor; [apply list_elem_of_here|done].
Qed.

(** X15. Every statement [statements_from_download] returns is free of
    line-break characters and made of ASCII characters only; data with a byte
    of 128 or more gives no statements at all but [UnicodeDecodeError]. *)
Theorem statements_are_ascii_lines (data : bytes) :
  (∀ statements, statements_from_download data = Ok statements →
     Forall (Forall (λ c, is_linebreak c = false ∧ (c < 128)%N)) statements) ∧
  ((∃ b, b ∈ data ∧ (128 ≤ Byte.to_N b)%N) →
     statements_from_download data = Raise UnicodeDecodeError).
Proof.
  split.
  - intros statements Hst. unfold statements_from_download in Hst.
    apply result_bind_Ok in Hst as (text & Htext & [= <-]).
    apply ascii_decode_inv in Htext as [_ Hascii].
    pose proof (splitlines_no_break text) as Hnb.
    pose proof (splitlines_elements text) as Hel.
    rewrite Forall_forall in Hnb, Hel. apply Forall_forall. intros line Hline.
    pose proof (Hnb line Hline) as Hnbl. pose proof (Hel line Hline) as Hell.
    rewrite Forall_forall in Hnbl, Hell, Hascii.
    apply Forall_forall. intros c Hc. split; [by apply Hnbl|].
    by apply Hascii, Hell.
  - intros (b & Hin & Hbig). unfold statements_from_download, ascii_decode.
    replace (forallb _ data) with false; [done|].
    symmetry. apply not_true_is_false. intros Hall.
    rewrite forallb_forall in Hall.
    pose proof (Hall b (proj1 (list_elem_of_In _ _) Hin)) as Hb.
    apply N.ltb_lt in Hb. lia.
Qed.

(** X16. Statements written one per line come back as they were: when each
    is made of ASCII bytes and holds no line-break character, the bytes of the
    statements, each followed by a line feed, are read back as the list of
    these statements, in order. *)
Theorem statements_round_trip (statements : list bytes) :
  Forall (Forall (λ b, (Byte.to_N b < 128)%N
                       ∧ is_linebreak (Byte.to_N b) = false)) statements →
  statements_from_download (concat ((λ sql, sql ++ [x0a%byte]) <$> statements))
  = Ok ((λ sql : bytes, Byte.to_N <$> sql) <$> statements).
Proof.
  intros Hall. unfold statements_from_download.
  rewrite ascii_decode_Ok.
  - simpl. f_equal.
    induction Hall as [|sql rest Hsql _ IH]; simpl; [done|].
    rewrite !fmap_app. change (Byte.to_N <$> [x0a%byte]) with [10%N].
    rewrite <- app_assoc. simpl app.
    rewrite splitlines_line; [f_equal; exact IH|].
    apply Forall_fmap. eapply Forall_impl; [exact Hsql|]. by intros b [_ Hb].
  - apply Forall_concat, Forall_fmap.
    eapply Forall_impl; [exact Hall|]. intros sql Hsql. simpl.
    apply Forall_app. split.
    + eapply Forall_impl; [exact Hsql|]. by intros b [Hb _].
    + by repeat constructor.
Qed.

Section RecovererFacts.
Context {Cu : Cursor}.

Lemma bind_run {W A B : Type} (m : M W A) (f : A → M W B) (w : W) :
  (m ≫= f) w
  = match m w with
    | (w', Ok a) => f a w'
    | (w', Raise e) => (w', Raise e)
    end.
Proof. done. Qed.

Lemma set_states_run (states : list RecoveryState) (w : recoverer_world) :
  ∃ units,
    mapM StatefulRecoverer._set_state states w
    = ({| _state := foldl (λ _ s, s) (_state w) states; db := db w |}, Ok units).
Proof.
  revert w. induction states as [|s states IH]; intros w; simpl.
  - exists []. by destruct w.
  - rewrite bind_run. simpl.
    destruct (IH {| _state := s; db := db w |}) as [units Hunits].
    rewrite bind_run, Hunits. simpl. by eexists.
Qed.

Lemma await_download_run (download : download_run) (w : recoverer_world) :
  StatefulRecoverer.await_download download w
  = ({| _state := foldl (λ _ s, s) (_state w) (reports download); db := db w |},
     outcome download).
Proof.
  unfold StatefulRecoverer.await_download. rewrite bind_run.
  destruct (set_states_run (reports download) w) as [units ->].
  by destruct (outcome download).
Qed.

(** [recover] works on the database only: it leaves [_state] alone, and what
    it does depends on the database alone. *)
Lemma recover_database_only (statements : list (list N)) (w w' : recoverer_world) :
  db w = db w' →
  _state (recover statements w).1 = _state w ∧
  db (recover statements w).1 = db (recover statements w').1 ∧
  (recover statements w).2 = (recover statements w').2.
Proof.
  revert w w'. induction statements as [|sql rest IH]; intros w w' Hdb; simpl.
  - done.
  - unfold mbind, M_bind. rewrite Hdb.
    destruct (execute sql (db w')) as [d [[]|e]]; simpl; [|done].
    destruct (IH {| _state := _state w; db := d |}
                 {| _state := _state w'; db := d |} eq_refl) as (Hs & Hd & Hr).
    done.
Qed.

Lemma recover_app (first rest : list (list N)) (w : recoverer_world) :
  recover (first ++ rest) w = (recover first ;; recover rest) w.
Proof.
  revert w. induction first as [|sql first IH]; intros w; simpl.
  - done.
  - unfold mbind, M_bind.
    destruct (execute sql (db w)) as [d [[]|e]]; simpl; [|done].
    rewrite IH. done.
Qed.

(** X17. [recover] executes the statements in order and stops at the first
    one the cursor refuses: when the statements before it executed and
    [execute] raises on it, [recover] raises that exception, the statements
    after it are never executed, and what the earlier statements did to the
    database stays. *)
Theorem import_stops_at_first_failure (executed rest : list (list N))
    (bad : list N) (w w1 : recoverer_world) (d : Db) (e : exn) :
  recover executed w = (w1, Ok tt) →
  execute bad (db w1) = (d, Raise e) →
  recover (executed ++ bad :: rest) w
  = ({| _state := _state w; db := d |}, Raise e).
Proof.
  intros Hexecuted Hbad. rewrite recover_app.
  unfold mbind, M_bind. rewrite Hexecuted. simpl.
  unfold mbind, M_bind. rewrite Hbad.
  destruct (recover_database_only executed w w eq_refl) as (Hstate & _ & _).
  rewrite Hexecuted in Hstate. simpl in Hstate. by rewrite Hstate.
Qed.

Lemma recover_method_from_inactive (download : download_run)
    (w : recoverer_world) :
  stage (_state w) = inactive →
  StatefulRecoverer.recover download w
  = match outcome download with
    | Raise e =>
        ({| _state := {| stage := download_failed;
                         failure_reason := Some (exn_str e) |};
            db := db w |}, ReturnedNone)
    | Ok data =>
        match statements_from_download data with
        | Raise e =>
            ({| _state := {| stage := import_failed;
                             failure_reason := Some (exn_str e) |};
                db := db w |}, ReturnedNone)
        | Ok statements =>
            match (recover statements w).2 with
            | Raise e =>
                ({| _state := {| stage := import_failed;
                                 failure_reason := Some (exn_str e) |};
                    db := db (recover statements w).1 |}, ReturnedNone)
            | Ok _ =>
                ({| _state := {| stage := succeeded; failure_reason := None |};
                    db := db (recover statements w).1 |}, ReturnedNone)
            end
        end
    end.
Proof.
  intros Hinactive. unfold StatefulRecoverer.recover.
  rewrite decide_False by (by rewrite Hinactive; intros Hne; apply Hne).
  rewrite await_download_run. simpl.
  destruct (outcome download) as [data|e]; [|done].
  unfold mbind, M_bind, lift.
  destruct (statements_from_download data) as [statements|e]; [|done].
  set (w2 := {| _state := _; db := db w |}).
  destruct (recover_database_only statements w2 w eq_refl) as (_ & Hd & Hr).
  destruct (recover statements w2) as [w3 r3].
  simpl in Hd, Hr. rewrite <- Hr, <- Hd. by destruct r3.
Qed.

(** X18. A recovery runs at most once.  Started from [inactive], [recover]
    returns [None] (it raises nothing, whatever the downloader and the cursor
    do) and leaves one of the stages [succeeded], [download_failed] and
    [import_failed], whatever states the downloader reported on the way; and
    in every stage but [inactive] it raises [AlreadyRecovering], runs no
    download and changes neither the state nor the database.  So a second
    call always raises. *)
Theorem recover_runs_at_most_once (download again : download_run)
    (w : recoverer_world) :
  (stage (_state w) ≠ inactive →
     StatefulRecoverer.recover download w = (w, RaisedAlreadyRecovering)) ∧
  (stage (_state w) = inactive →
     (StatefulRecoverer.recover download w).2 = ReturnedNone ∧
     stage (_state (StatefulRecoverer.recover download w).1)
     ∈ [succeeded; download_failed; import_failed] ∧
     StatefulRecoverer.recover again (StatefulRecoverer.recover download w).1
     = ((StatefulRecoverer.recover download w).1, RaisedAlreadyRecovering)).
Proof.
  assert (Hagain : ∀ d w0, stage (_state w0) ≠ inactive →
            StatefulRecoverer.recover d w0 = (w0, RaisedAlreadyRecovering)).
  { intros d w0 Hne. unfold StatefulRecoverer.recover. by rewrite decide_True. }
  split; [apply Hagain|]. intros Hinactive.
  assert (Hend : (StatefulRecoverer.recover download w).2 = ReturnedNone ∧
                 stage (_state (StatefulRecoverer.recover download w).1)
                 ∈ [succeeded; download_failed; import_failed]).
  { rewrite recover_method_from_inactive by done.
    destruct (outcome download) as [data|e]; simpl.
    - destruct (statements_from_download data) as [statements|e]; simpl.
      + destruct (recover statements w).2; simpl; split; try done;
          repeat constructor.
      + split; [done|]. repeat constructor.
    - split; [done|]. repeat constructor. }
  destruct Hend as [Hnone Hstage]. split_and!; try done.
  apply Hagain. intros Hi. rewrite Hi in Hstage.
  repeat (apply elem_of_cons in Hstage as [Hstage|Hstage]; [done|]).
  by apply elem_of_nil in Hstage.
Qed.

(** X19. When the downloader raises, nothing is imported: from [inactive]
    the recoverer ends in [download_failed] with the text of the exception as
    the reason, and the database is untouched.  [make_fail_downloader(reason)]
    is such a downloader for every [reason]. *)
Theorem download_failure_leaves_database (download : download_run)
    (w : recoverer_world) (e : exn) :
  stage (_state w) = inactive →
  (outcome download = Raise e →
   StatefulRecoverer.recover download w
   = ({| _state := {| stage := download_failed;
                      failure_reason := Some (exn_str e) |};
         db := db w |}, ReturnedNone)) ∧
  StatefulRecoverer.recover (make_fail_downloader e) w
  = ({| _state := {| stage := download_failed;
                     failure_reason := Some (exn_str e) |};
        db := db w |}, ReturnedNone).
Proof.
  intros Hinactive. split.
  - intros Hraise. rewrite recover_method_from_inactive by done.
    by rewrite Hraise.
  - by rewrite recover_method_from_inactive.
Qed.

(** X20. When the downloader returns data, the end of a recovery from
    [inactive] is decided by the import alone, not by the states the
    downloader reported: data that is not ASCII ends in [import_failed] with
    the database untouched; statements that all execute end in [succeeded]
    with no reason, the database being the one they left; a statement that
    is refused ends in [import_failed] with the text of its exception, the
    database being as the statements up to it left it.  The [noop_downloader]
    ends in [succeeded] with the database untouched. *)
Theorem recovery_ends_as_the_import_ends (download : download_run)
    (data : bytes) (w : recoverer_world) :
  stage (_state w) = inactive →
  outcome download = Ok data →
  (∀ e, statements_from_download data = Raise e →
     StatefulRecoverer.recover download w
     = ({| _state := {| stage := import_failed;
                        failure_reason := Some (exn_str e) |};
           db := db w |}, ReturnedNone)) ∧
  (∀ statements w', statements_from_download data = Ok statements →
     recover statements w = (w', Ok tt) →
     StatefulRecoverer.recover download w
     = ({| _state := {| stage := succeeded; failure_reason := None |};
           db := db w' |}, ReturnedNone)) ∧
  (∀ statements w' e, statements_from_download data = Ok statements →
     recover statements w = (w', Raise e) →
     StatefulRecoverer.recover download w
     = ({| _state := {| stage := import_failed;
                        failure_reason := Some (exn_str e) |};
           db := db w' |}, ReturnedNone)) ∧
  StatefulRecoverer.recover noop_downloader w
  = ({| _state := {| stage := succeeded; failure_reason := None |};
        db := db w |}, ReturnedNone).
Proof.
  intros Hinactive Hdata. split_and!.
  - intros e Hst. rewrite recover_method_from_inactive by done.
    by rewrite Hdata, Hst.
  - intros statements w' Hst Hrun. rewrite recover_method_from_inactive by done.
    by rewrite Hdata, Hst, Hrun.
  - intros statements w' e Hst Hrun. rewrite recover_method_from_inactive by done.
    by rewrite Hdata, Hst, Hrun.
  - by rewrite recover_method_from_inactive.
Qed.

End RecovererFacts.

(** ** The further properties on concrete inputs *)

Section MoreConcrete.
Import Demo MoreDemo.
#[local] Existing Instances common privacypass server model cursor.

Lemma get_allocated_size_is_largest_position_witness :
  get_allocated_size one_write = Ok 500000 ∧
  ∀ sharenum test data new_length offset s,
    one_write !! sharenum = Some (test, data, new_length) → (offset, s) ∈ data →
    offset + Z.of_nat (length s) ≤ 500000.
Proof.
  assert (Hsize : get_allocated_size one_write = Ok 500000)
    by (vm_compute; reflexivity).
  split; [exact Hsize|].
  exact (proj1 (get_allocated_size_is_largest_position one_write 500000 Hsize)).
Defined.

Lemma repeated_pass_counts_each_time_witness :
  is_valid_pass signing_key (allocate_buckets_message storage_index)
    allocation_pass ∧
  required_passes BYTES_PER_PASS {[ 0; 1; 2 ]} 2500000 ≤ Z.of_nat 3 ∧
  (remote_allocate_buckets signing_key (replicate 3 allocation_pass)
     storage_index [] [] {[ 0; 1; 2 ]} 2500000 tt expired).2
  = Ok tt.
Proof.
  assert (Hvalid : is_valid_pass signing_key
                     (allocate_buckets_message storage_index) allocation_pass)
    by reflexivity.
  assert (Hrequired : required_passes BYTES_PER_PASS {[ 0; 1; 2 ]} 2500000
                      ≤ Z.of_nat 3) by (vm_compute; discriminate).
  split; [exact Hvalid|]. split; [exact Hrequired|].
  destruct (repeated_pass_counts_each_time (SC:=common) (PP:=privacypass)
              (RS:=server) signing_key allocation_pass 3 storage_index [] []
              {[ 0; 1; 2 ]} 2500000 tt expired Hvalid Hrequired) as [_ Hrun].
  rewrite Hrun. reflexivity.
Defined.

Lemma valid_pass_has_one_space_witness :
  is_valid_pass signing_key
    (slot_testv_and_readv_and_writev_message storage_index) good_pass ∧
  length (filter (λ b, b = " "%byte) good_pass) = 1%nat.
Proof.
  assert (Hvalid : is_valid_pass signing_key
                     (slot_testv_and_readv_and_writev_message storage_index)
                     good_pass) by reflexivity.
  split; [exact Hvalid|].
  exact (valid_pass_has_one_space (SC:=common) (PP:=privacypass) signing_key
           _ good_pass Hvalid).
Defined.

Lemma allocate_buckets_counts_valid_passes_only_witness :
  length (filter (is_valid_pass signing_key
                    (allocate_buckets_message storage_index))
            [allocation_pass])
  = length (filter (is_valid_pass signing_key
                      (allocate_buckets_message storage_index))
              [bad_pass; allocation_pass; bad_pass]) ∧
  (remote_allocate_buckets signing_key [allocation_pass] storage_index [] []
     {[ 0 ]} 1000000 tt expired).2
  = (remote_allocate_buckets signing_key [bad_pass; allocation_pass; bad_pass]
       storage_index [] [] {[ 0 ]} 1000000 tt expired).2.
Proof.
  assert (Hcount :
    length (filter (is_valid_pass signing_key
                      (allocate_buckets_message storage_index))
              [allocation_pass])
    = length (filter (is_valid_pass signing_key
                        (allocate_buckets_message storage_index))
                [bad_pass; allocation_pass; bad_pass])) by reflexivity.
  split; [exact Hcount|].
  exact (proj1 (allocate_buckets_counts_valid_passes_only (SC:=common)
                  (PP:=privacypass) (RS:=server) signing_key [allocation_pass]
                  [bad_pass; allocation_pass; bad_pass] storage_index [] []
                  {[ 0 ]} 1000000 tt expired Hcount)).
Defined.

Lemma split_ignores_indices_out_of_range_witness :
  (∀ i : nat, (i < length (_tokens drawn))%nat →
     Z.of_nat i ∈ ({[ 1 ]} : gset Z) ↔ Z.of_nat i ∈ ({[ 1; 7; -3 ]} : gset Z)) ∧
  PassGroup.split drawn {[ 1 ]} = PassGroup.split drawn {[ 1; 7; -3 ]}.
Proof.
  assert (Hagree : ∀ i : nat, (i < length (_tokens drawn))%nat →
            Z.of_nat i ∈ ({[ 1 ]} : gset Z)
            ↔ Z.of_nat i ∈ ({[ 1; 7; -3 ]} : gset Z)).
  { intros i Hi. simpl in Hi.
    rewrite !elem_of_union, !elem_of_singleton. lia. }
  split; [exact Hagree|].
  exact (proj1 (split_ignores_indices_out_of_range (Mo:=model) drawn
                  {[ 1 ]} {[ 1; 7; -3 ]} Hagree)).
Defined.

Lemma get_returns_zipped_group_witness :
  get_unblinded_tokens controller 2 (store stocked)
  = ({| available := [3]%nat; journal := [] |}, Ok [1; 2]%nat) ∧
  SpendingController.get controller text_message 2 stocked
  = ({| store := {| available := [3]%nat; journal := [] |};
        log := [GET_PASSES [109%N] 2] |}, Ok drawn).
Proof.
  split; [reflexivity|].
  destruct (get_returns_zipped_group (Mo:=model) controller text_message 2
              stocked {| available := [3]%nat; journal := [] |} [1; 2]%nat
              [(text_message, 1); (text_message, 2)]%nat [109%N]
              eq_refl eq_refl eq_refl)
    as (g & Hrun & Hmessage & Hfactory & Htokens & _).
  rewrite Hrun. do 2 f_equal.
  destruct g as [m f t]. simpl in *. by subst.
Defined.

Lemma expand_appends_drawn_pairs_witness :
  get_unblinded_tokens controller 1 {| available := [3]%nat; journal := [] |}
  = ({| available := []; journal := [] |}, Ok [3]%nat) ∧
  PassGroup.expand drawn 1
    {| store := {| available := [3]%nat; journal := [] |}; log := [] |}
  = ({| store := {| available := []; journal := [] |};
        log := [GET_PASSES [109%N] 1] |},
     Ok {| _message := text_message; _factory := controller;
           _tokens := [(1, (text_message, 1)); (2, (text_message, 2));
                       (3, (text_message, 3))]%nat |}).
Proof.
  split; [reflexivity|].
  exact (expand_appends_drawn_pairs (Mo:=model) drawn 1
           {| store := {| available := [3]%nat; journal := [] |}; log := [] |}
           {| available := []; journal := [] |} [3]%nat
           [(text_message, 3)]%nat [109%N] eq_refl eq_refl eq_refl).
Defined.

Lemma split_then_spend_and_reset_witness :
  (discard_unblinded_tokens controller [1]%nat
     {| available := [3]%nat; journal := [] |}).2 = Ok tt ∧
  (PassGroup.mark_spent (PassGroup.split drawn {[ 0 ]}).1 ;;
   PassGroup.reset (PassGroup.split drawn {[ 0 ]}).2)
    {| store := {| available := [3]%nat; journal := [] |}; log := [] |}
  = ({| store := {| available := [3; 2]%nat;
                    journal := [Discarded [1]%nat; WasReset [2]%nat] |};
        log := [SPENT_PASSES 1; RESET_PASSES 1] |}, Ok tt).
Proof.
  split; [reflexivity|].
  exact (proj1 (split_then_spend_and_reset (Mo:=model) drawn {[ 0 ]}
                  {| store := {| available := [3]%nat; journal := [] |};
                     log := [] |} eq_refl)).
Defined.

Lemma statements_round_trip_witness :
  Forall (Forall (λ b, (Byte.to_N b < 128)%N
                       ∧ is_linebreak (Byte.to_N b) = false))
    [["a"%byte]; ["b"%byte]] ∧
  statements_from_download two_lines = Ok [[97%N]; [98%N]].
Proof.
  assert (Hall : Forall (Forall (λ b, (Byte.to_N b < 128)%N
                                      ∧ is_linebreak (Byte.to_N b) = false))
                   [["a"%byte]; ["b"%byte]]).
  { repeat constructor. }
  split; [exact Hall|].
  exact (statements_round_trip [["a"%byte]; ["b"%byte]] Hall).
Defined.

Lemma import_stops_at_first_failure_witness :
  recover [[97%N]] fresh
  = ({| _state := _state fresh; db := [[97%N]] |}, Ok tt) ∧
  execute [120%N] [[97%N]] = ([[97%N]], Raise (Foreign 7)) ∧
  recover [[97%N]; [120%N]; [98%N]] fresh
  = ({| _state := _state fresh; db := [[97%N]] |}, Raise (Foreign 7)).
Proof.
  split; [reflexivity|]. split; [reflexivity|].
  exact (import_stops_at_first_failure (Cu:=cursor) [[97%N]] [[98%N]] [120%N]
           fresh {| _state := _state fresh; db := [[97%N]] |} [[97%N]]
           (Foreign 7) eq_refl eq_refl).
Defined.

Lemma download_failure_leaves_database_witness :
  stage (_state fresh) = inactive ∧
  StatefulRecoverer.recover (make_fail_downloader ValueError) fresh
  = ({| _state := {| stage := download_failed; failure_reason := Some "error" |};
        db := [] |}, ReturnedNone).
Proof.
  split; [reflexivity|].
  exact (proj2 (download_failure_leaves_database (Cu:=cursor)
                  noop_downloader fresh ValueError eq_refl)).
Defined.

Lemma recovery_ends_as_the_import_ends_witness :
  stage (_state fresh) = inactive ∧
  outcome {| reports := [{| stage := downloading; failure_reason := None |}];
             outcome := Ok two_lines |} = Ok two_lines ∧
  StatefulRecoverer.recover
    {| reports := [{| stage := downloading; failure_reason := None |}];
       outcome := Ok two_lines |} fresh
  = ({| _state := {| stage := succeeded; failure_reason := None |};
        db := [[97%N]; [98%N]] |}, ReturnedNone).
Proof.
  split; [reflexivity|]. split; [reflexivity|].
  destruct (recovery_ends_as_the_import_ends (Cu:=cursor)
              {| reports := [{| stage := downloading; failure_reason := None |}];
                 outcome := Ok two_lines |} two_lines fresh eq_refl eq_refl)
    as (_ & Hok & _).
  exact (Hok [[97%N]; [98%N]]
           {| _state := _state fresh; db := [[97%N]; [98%N]] |}
           eq_refl eq_refl).
Defined.

End MoreConcrete.
